(** * Letter Boxed helper: the dictionary trie and the chain search

    A shallow embedding of [letterboxed/main.go] and the properties of its
    core: the dictionary trie ([loadWords], [isWordValid], [allValidWords],
    [explore]), the side-avoiding word filter ([validWordHelper],
    [validWords], [validWordsStartingWith]), the coverage test
    ([isGameComplete]) and the three-word chain count ([numberOfSolutions]),
    followed by the shell around them ([validateFlags], [cleanInput], the
    loop of [repl] and [main]).

    Modelling conventions.
    - The word source and the box are ASCII (spec, section 6), so a Go string
      is a list of one-byte characters: ranging over a string, indexing it and
      [len] all count the same units, and a rune is an [ascii].
    - [map[rune]*trie] is a finite map [gmap ascii trie]; the maps built by
      [loadWords] never hold a nil child, so children are tries, and only the
      pointer handed to [validWordHelper] by [validWordsStartingWith] can be
      nil.
    - A call either returns, panics (nil dereference, index out of range) or
      ends the process ([log.Fatalf]); see [outcome].
    - Go's [int] is 64-bit: the solution counter wraps ([int_add]).
    - Text written to standard output is kept for [explore] and, as one
      event per message, for the loop of [repl]. *)

From Stdlib Require Import Ascii String ZArith Lia.
From stdpp Require Import gmap strings list fin_maps fin_sets sorting.

#[local] Set Warnings "-clear-no-such-hyp".

#[local] Open Scope Z_scope.
#[local] Open Scope nat_scope.

(** ** Strings *)

(** A string literal as a list of characters. *)
Definition s (lit : string) : list ascii := list_ascii_of_string lit.

Definition rune_code (c : ascii) : N := N_of_ascii c.

(** [strings.ToUpper] on ASCII text. *)
Definition upper_rune (c : ascii) : ascii :=
  if (97 <=? rune_code c)%N && (rune_code c <=? 122)%N
  then ascii_of_N (rune_code c - 32) else c.

Definition ToUpper (w : list ascii) : list ascii := upper_rune <$> w.

(** [strings.ContainsAny(word, chars)]. *)
Definition ContainsAny (word chars : list ascii) : bool :=
  existsb (λ c, bool_decide (c ∈ chars)) word.

Fixpoint has_prefix (pre w : list ascii) : bool :=
  match pre, w with
  | [], _ => true
  | _ :: _, [] => false
  | a :: pre', b :: w' => bool_decide (a = b) && has_prefix pre' w'
  end.

(** [strings.Contains(w, sub)]: [sub] occurs in [w] as a substring. *)
Fixpoint Contains (w sub : list ascii) : bool :=
  has_prefix sub w ||
  match w with
  | [] => false
  | _ :: w' => Contains w' sub
  end.

(** Go's [<] on strings: bytewise lexicographic order. *)
Fixpoint str_lt (x y : list ascii) : bool :=
  match x, y with
  | _, [] => false
  | [], _ :: _ => true
  | a :: x', b :: y' =>
      (rune_code a <? rune_code b)%N || (bool_decide (a = b) && str_lt x' y')
  end.

(** ** Outcomes of a call *)

Inductive outcome (A : Type) : Type :=
  | Ret (a : A)       (* the call returns [a] *)
  | Panic             (* run-time panic: nil dereference or index out of range *)
  | Fatal             (* [log.Fatalf]: the process exits with status 1 *)
  | OutOfFuel.        (* the recursion bound of the model was too small *)
Arguments Ret {A} a.
Arguments Panic {A}.
Arguments Fatal {A}.
Arguments OutOfFuel {A}.

Definition obind {A B} (m : outcome A) (k : A → outcome B) : outcome B :=
  match m with
  | Ret a => k a
  | Panic => Panic
  | Fatal => Fatal
  | OutOfFuel => OutOfFuel
  end.

#[global] Instance outcome_bind : MBind outcome := λ A B k m, obind m k.
#[global] Instance outcome_ret : MRet outcome := λ A a, Ret a.

(** Go's [int]: 64-bit two's complement. *)
Definition wrap64 (z : Z) : Z := ((z + 2 ^ 63) mod 2 ^ 64 - 2 ^ 63)%Z.
Definition int_add (a b : Z) : Z := wrap64 (a + b).
Definition int_of_nat (n : nat) : Z := wrap64 (Z.of_nat n).

(** ** The trie *)

#[warnings="-register-all"]
Inductive trie : Type :=
  Trie { complete : bool; children : gmap ascii trie }.

Definition emptyTrie : trie := Trie false ∅.

(** Follow [w] letter by letter; [None] when a child is missing. *)
Fixpoint descend (t : trie) (w : list ascii) : option trie :=
  match w with
  | [] => Some t
  | ch :: w' =>
      match children t !! ch with
      | None => None
      | Some next => descend next w'
      end
  end.

(** *** loadWords *)

Definition filtered : list ascii := s "1234567890-'.!@#$%^&*()".

(** The inner loop of [loadWords] for one word: [i] is the index of the
    next letter, [len] is [len(word)]. A missing child is created with
    [complete := (i == len(word)-1)]; an existing child is left as it is. *)
Fixpoint insertFrom (len : Z) (i : Z) (upper : list ascii) (t : trie) : trie :=
  match upper with
  | [] => t
  | r :: rest =>
      let nextTrie :=
        match children t !! r with
        | Some found => found
        | None => Trie (bool_decide (i = len - 1)%Z) ∅
        end in
      Trie (complete t)
           (<[r := insertFrom len (i + 1)%Z rest nextTrie]> (children t))
  end.

Definition insertWord (t : trie) (word : list ascii) : trie :=
  if ContainsAny word filtered then t
  else insertFrom (Z.of_nat (length word)) 0%Z (ToUpper word) t.

(** The scanner loop over the lines of the word list. *)
Definition buildTrie (lines : list (list ascii)) : trie :=
  foldl insertWord emptyTrie lines.

(** [loadWords]: [None] stands for a word list that cannot be opened. *)
Definition loadWords (file : option (list (list ascii))) : option trie :=
  buildTrie <$> file.

(** *** sortedChildren *)

Definition rune_le (a b : ascii) : Prop := (rune_code a <= rune_code b)%N.
#[local] Instance rune_le_dec a b : Decision (rune_le a b) :=
  N.le_dec (rune_code a) (rune_code b).

Definition sortedChildren (t : trie) : list ascii :=
  merge_sort rune_le (fst <$> map_to_list (children t)).

(** *** isWordValid *)

Fixpoint isWordValid (t : trie) (word : list ascii) : bool :=
  match word with
  | [] => true
  | ch :: word' =>
      match children t !! ch with
      | None => false
      | Some next => isWordValid next word'
      end
  end.

(** *** allValidWords *)

(** The closure [helper] of [allValidWords]. The results for the children
    are tabulated first: [below !! ch] is the recursive call on
    [children curr !! ch] (see [allValidWords_helper_unfold]). *)
Fixpoint allValidWords_helper (curr : trie) : list (list ascii) :=
  let below := allValidWords_helper <$> children curr in
  sortedChildren curr ≫= λ ch,
    match children curr !! ch, below !! ch with
    | Some next, Some words =>
        if bool_decide (size (children next) = 0) then [[ch]]
        else (if complete next then [[ch]] else []) ++ ((ch ::.) <$> words)
    | _, _ => []
    end.

Definition allValidWords (t : trie) (pre : list ascii) : list (list ascii) :=
  match descend t pre with
  | None => []
  | Some curr => (pre ++.) <$> allValidWords_helper curr
  end.

(** *** explore *)

Inductive exploreError : Type :=
  NotInDictionary (newWord : list ascii) (ch : ascii).

Inductive printed : Type :=
  | PrintValid (total : nat) (first10 : list (list ascii))
  | PrintNoChildren (newWord : list ascii)
  | PrintNode (newWord : list ascii) (childChars : list ascii)
              (first10 : list (list ascii)).

(** The loop of [explore]: the node for [w], or the first letter without a
    child. *)
Fixpoint walk (t : trie) (w : list ascii) : trie + ascii :=
  match w with
  | [] => inl t
  | ch :: w' =>
      match children t !! ch with
      | None => inr ch
      | Some next => walk next w'
      end
  end.

Record explored : Type := Explored {
  ex_printed : option printed;
  ex_word : list ascii;
  ex_err : option exploreError }.

Definition explore (t : trie) (text currWord : list ascii) : explored :=
  if decide (text = s ".reset") then Explored None [] None
  else if decide (text = s ".valid") then
    let words := allValidWords t currWord in
    Explored (Some (PrintValid (length words) (take 10 words))) currWord None
  else
    let newWord := ToUpper (currWord ++ text) in
    match walk t newWord with
    | inr ch => Explored None currWord (Some (NotInDictionary newWord ch))
    | inl currTrie =>
        if decide (size (children currTrie) = 0)
        then Explored (Some (PrintNoChildren newWord)) [] None
        else
          let words := allValidWords t newWord in
          Explored (Some (PrintNode newWord (sortedChildren currTrie)
                                    (take 10 words)))
                   newWord None
    end.

(** ** The box and the side-avoiding filter *)

Record gameState : Type := GameState {
  groupings : list (list ascii);
  words : list (list ascii) }.

(** [for i, x := range l]. *)
Definition indexed {A} (l : list A) : list (nat * A) := imap pair l.

(** [validWordHelper] on a non-nil node. The results for the children are
    tabulated first: [below !! ch] is the recursive call on
    [children currTrie !! ch] (see [validWordHelper_unfold]). *)
Fixpoint validWordHelper (groupings : list (list ascii)) (currTrie : trie)
    (letters : list ascii) (lastActiveGroup : Z) {struct currTrie}
    : list (list ascii) :=
  let below := validWordHelper groupings <$> children currTrie in
  indexed groupings ≫= λ '(i, group),
    if decide (Z.of_nat i = lastActiveGroup) then []
    else group ≫= λ ch,
      match children currTrie !! ch, below !! ch with
      | Some next, Some recurse =>
          (if complete next && bool_decide (2 ≤ length letters)
           then [letters ++ [ch]] else [])
          ++ recurse (letters ++ [ch]) (Z.of_nat i)
      | _, _ => []
      end.

(** [validWordHelper] on a possibly nil pointer: on nil the first
    [currTrie.children[ch]] panics, and that access is reached exactly when
    some side other than the forbidden one has a letter. *)
Definition validWordHelper_ptr (groupings : list (list ascii))
    (currTrie : option trie) (letters : list ascii) (lastActiveGroup : Z)
    : outcome (list (list ascii)) :=
  match currTrie with
  | Some node => Ret (validWordHelper groupings node letters lastActiveGroup)
  | None =>
      if existsb (λ '(i, group),
                    bool_decide (Z.of_nat i ≠ lastActiveGroup)
                    && bool_decide (group ≠ []))
                 (indexed groupings)
      then Panic else Ret []
  end.

Definition validWords (dictionary : trie) (game : gameState)
    : list (list ascii) :=
  validWordHelper (groupings game) dictionary [] (-1)%Z.

(** [l[i]] with Go's bounds check. *)
Definition index {A} (l : list A) (i : Z) : outcome A :=
  if (i <? 0)%Z then Panic
  else match l !! Z.to_nat i with
       | Some x => Ret x
       | None => Panic
       end.

(** The loop that looks for the side containing [prefix], from side [i] on;
    [-1] when there is none. *)
Fixpoint activeGroupFrom (i : nat) (groupings : list (list ascii))
    (prefix : list ascii) : Z :=
  match groupings with
  | [] => (-1)%Z
  | group :: rest =>
      if Contains group prefix then Z.of_nat i
      else activeGroupFrom (S i) rest prefix
  end.

Definition validWordsStartingWith (dictionary : trie) (game : gameState)
    (prefix : list ascii) : outcome (list (list ascii)) :=
  ch ← index prefix 0%Z;
  let activeGroup := activeGroupFrom 0 (groupings game) prefix in
  if decide (activeGroup = (-1)%Z) then Fatal
  else validWordHelper_ptr (groupings game) (children dictionary !! ch)
                           prefix activeGroup.

(** ** Coverage *)

(** One word of the loop of [isGameComplete]: [None] when the function
    returned [true] from inside the loop, otherwise the letters seen. *)
Fixpoint isGameComplete_word (letters : gset ascii) (w : list ascii)
    : option (gset ascii) :=
  match w with
  | [] => Some letters
  | ch :: w' =>
      let letters' := {[ch]} ∪ letters in
      if decide (size letters' = 12) then None
      else isGameComplete_word letters' w'
  end.

Fixpoint isGameComplete_from (letters : gset ascii) (ws : list (list ascii))
    : bool :=
  match ws with
  | [] => bool_decide (size letters = 12)
  | w :: ws' =>
      match isGameComplete_word letters w with
      | None => true
      | Some letters' => isGameComplete_from letters' ws'
      end
  end.

Definition isGameComplete (ws : list (list ascii)) : bool :=
  isGameComplete_from ∅ ws.

(** ** Counting the three-word chains *)

(** [acc := ...; for _, x := range l { if skip x { continue }; acc += f x }]. *)
Fixpoint sumLoop {A} (skip : A → bool) (f : A → outcome Z) (l : list A)
    (acc : Z) : outcome Z :=
  match l with
  | [] => Ret acc
  | x :: l' =>
      if skip x then sumLoop skip f l' acc
      else r ← f x; sumLoop skip f l' (int_add acc r)
  end.

(** The comparison handed to [sort.Slice]. *)
Definition byLengthThenAlphabetically (x y : list ascii) : bool :=
  let deltaLength := (Z.of_nat (length x) - Z.of_nat (length y))%Z in
  bool_decide (deltaLength > 0)%Z
  || (bool_decide (deltaLength = 0)%Z && str_lt x y).

(** [x] may stand before [y] in a slice sorted by the comparison. *)
Definition ranked (x y : list ascii) : Prop :=
  byLengthThenAlphabetically y x = false.
#[local] Instance ranked_dec x y : Decision (ranked x y) :=
  bool_eq_dec (byLengthThenAlphabetically y x) false.

Definition sortWords (l : list (list ascii)) : list (list ascii) :=
  merge_sort ranked l.

Section search.
Variables (dictionary : trie) (game : gameState).

(** The closure [helper] of [numberOfSolutions]; [fuel] bounds the depth
    of the recursion. *)
Fixpoint helper (fuel : nat) (chain : list (list ascii)) : outcome Z :=
  match fuel with
  | 0 => OutOfFuel
  | S fuel' =>
      lastWord ← index chain (Z.of_nat (length chain) - 1)%Z;
      lastByte ← index lastWord (Z.of_nat (length lastWord) - 1)%Z;
      nextWords ← validWordsStartingWith dictionary game [lastByte];
      if decide (length chain = 3)
      then Ret (if isGameComplete chain then 1 else 0)%Z
      else sumLoop (λ next, bool_decide (next ∈ chain))
                   (λ next, helper fuel' (chain ++ [next]))
                   nextWords 0%Z
  end.

(** The outer loop of [numberOfSolutions] over a candidate list. *)
Definition solutionsOver (fuel : nat) (candidates : list (list ascii))
    : outcome Z :=
  sumLoop (λ _, false) (λ w, helper fuel [w]) candidates 0%Z.

Definition numberOfSolutions_fuel (fuel : nat) : outcome Z :=
  solutionsOver fuel (sortWords (validWords dictionary game)).

(** Chains grow from one word to three, so depth three is enough (see
    [helper_fuel]). *)
Definition numberOfSolutions : outcome Z := numberOfSolutions_fuel 3.
End search.

(** ** The shell: flags, input lines and the command loop *)

(** [strings.Split(w, sep)] for a one-character separator. *)
Fixpoint Split (w : list ascii) (sep : ascii) : list (list ascii) :=
  match w with
  | [] => [[]]
  | c :: w' =>
      if decide (c = sep) then [] :: Split w' sep
      else match Split w' sep with
           | piece :: pieces => (c :: piece) :: pieces
           | [] => [[c]]
           end
  end.

(** [strings.ToLower] on ASCII text. *)
Definition lower_rune (c : ascii) : ascii :=
  if (65 <=? rune_code c)%N && (rune_code c <=? 90)%N
  then ascii_of_N (rune_code c + 32) else c.

Definition ToLower (w : list ascii) : list ascii := lower_rune <$> w.

(** The white space of [strings.TrimSpace] within ASCII: tab, line feed,
    vertical tab, form feed, carriage return and space. *)
Definition isSpace (c : ascii) : bool :=
  match c with
  | "009" | "010" | "011" | "012" | "013" | " " => true
  | _ => false
  end%char.

Fixpoint trimLeft (w : list ascii) : list ascii :=
  match w with
  | [] => []
  | c :: w' => if isSpace c then trimLeft w' else w
  end.

Definition TrimSpace (w : list ascii) : list ascii :=
  reverse (trimLeft (reverse (trimLeft w))).

(** [strings.EqualFold] on ASCII text. *)
Definition EqualFold (x y : list ascii) : bool :=
  bool_decide (ToLower x = ToLower y).

(** *** cleanInput *)

Definition cleanInput (text : list ascii) : list ascii :=
  ToLower (TrimSpace text).

(** *** validateFlags *)

(** What [validateFlags] prints before [os.Exit(1)]. *)
Inductive flagsError : Type :=
  | NoLetters
  | WrongGroupings (n : nat) (groupings : list (list ascii))
  | DuplicateChar (ch : ascii) (groupings : list (list ascii)).

(** The loop over the letters of one group: the duplicate found, or the
    letters seen so far. *)
Fixpoint checkGroup (allLetters : gset ascii) (group : list ascii)
    : ascii + gset ascii :=
  match group with
  | [] => inr allLetters
  | ch :: group' =>
      if decide (ch ∈ allLetters) then inl ch
      else checkGroup ({[ch]} ∪ allLetters) group'
  end.

(** The loop over the groups; [groupings] is the whole list, for the
    messages. *)
Fixpoint checkGroups (groupings : list (list ascii)) (allLetters : gset ascii)
    (rest : list (list ascii)) : option flagsError :=
  match rest with
  | [] => None
  | group :: rest' =>
      if decide (length group ≠ 3)
      then Some (WrongGroupings (length groupings) groupings)
      else match checkGroup allLetters group with
           | inl ch => Some (DuplicateChar ch groupings)
           | inr allLetters' => checkGroups groupings allLetters' rest'
           end
  end.

(** [validateFlags] on the value of [--letters]: [Some e] when the message
    [e] is printed and the process exits with status 1, [None] when the
    function returns. *)
Definition validateFlags (letters : list ascii) : option flagsError :=
  if decide (length letters = 0) then Some NoLetters
  else
    let groupings := Split (ToUpper letters) "," in
    if decide (length groupings ≠ 4)
    then Some (WrongGroupings (length groupings) groupings)
    else checkGroups groupings ∅ groupings.

(** The game [repl] builds from the same flag. *)
Definition gameOfFlag (letters : list ascii) : gameState :=
  GameState (Split (ToUpper letters) ",") [].

(** *** repl *)

(** The variables the loop of [repl] carries from line to line. *)
Record shell : Type := Shell {
  trieMode : bool;
  currWord : list ascii }.

(** What one turn of the loop writes, the prompt apart. *)
Inductive shown : Type :=
  | ShowHelp
  | ShowClear
  | ShowTrieActivated
  | ShowExplore (r : explored)
  | ShowWords (total : nat) (text : list ascii)
              (first10 : list (list ascii)).

Inductive turn : Type :=
  | Stop                                    (* [return] on [exit] *)
  | Next (st : shell) (out : list shown).

(** The body of the loop of [repl] for one line of input. *)
Definition replTurn (dictionary : trie) (game : gameState) (st : shell)
    (line : list ascii) : outcome turn :=
  let text := cleanInput line in
  if decide (text = s "help") then Ret (Next st [ShowHelp])
  else if decide (text = s "clear") then Ret (Next st [ShowClear])
  else if EqualFold (s "exit") text then Ret Stop
  else if EqualFold (s "trie") text then
    let mode := negb (trieMode st) in
    Ret (Next (Shell mode (currWord st))
              (if mode then [ShowTrieActivated] else []))
  else if trieMode st then
    let r := explore dictionary text (currWord st) in
    Ret (Next (Shell (trieMode st) (ex_word r)) [ShowExplore r])
  else if decide (length text = 1) then
    validWords ← validWordsStartingWith dictionary game (ToUpper text);
    Ret (Next st [ShowWords (length validWords) text
                            (take 10 (sortWords validWords))])
  else Ret (Next st []).

(** The loop of [repl] over the lines of standard input. *)
Fixpoint replLoop (dictionary : trie) (game : gameState) (st : shell)
    (lines : list (list ascii)) : outcome (shell * list shown) :=
  match lines with
  | [] => Ret (st, [])
  | line :: rest =>
      t ← replTurn dictionary game st line;
      match t with
      | Stop => Ret (st, [])
      | Next st' out =>
          r ← replLoop dictionary game st' rest;
          Ret (r.1, out ++ r.2)
      end
  end.

(** [main] after [flag.Parse]: [validateFlags], then [repl], which loads
    the words, prints the number of solutions and runs the loop. The
    result is [inl e] when the flags are refused, [inr None] when the word
    list cannot be read, and otherwise the count with the last state and
    what the loop wrote. *)
Definition main (file : option (list (list ascii))) (letters : list ascii)
    (input : list (list ascii))
    : flagsError + outcome (option (Z * shell * list shown)) :=
  match validateFlags letters with
  | Some e => inl e
  | None =>
      inr match loadWords file with
          | None => Ret None
          | Some dictionary =>
              let game := gameOfFlag letters in
              solutions ← numberOfSolutions dictionary game;
              r ← replLoop dictionary game (Shell false []) input;
              Ret (Some (solutions, r.1, r.2))
          end
  end.

(** ** Measures and specification-side notions *)

(** The height of a trie, for induction over nodes. *)
Fixpoint trie_height (t : trie) : nat :=
  let heights := trie_height <$> children t in
  S (map_fold (λ _ h acc, h `max` acc) 0 heights).

(** The node for [w] exists and is marked complete. *)
Definition is_terminal (t : trie) (w : list ascii) : bool :=
  match descend t w with
  | Some node => complete node
  | None => false
  end.

(** A box layout: four sides of three letters, twelve distinct letters. *)
Definition BoxLayout (gs : list (list ascii)) : Prop :=
  length gs = 4 ∧ Forall (λ side, length side = 3) gs ∧ NoDup (mjoin gs).
#[global] Instance BoxLayout_dec gs : Decision (BoxLayout gs) := _.

(** Two letters lie on one side of the box. *)
Definition same_side (gs : list (list ascii)) (a b : ascii) : Prop :=
  ∃ side, side ∈ gs ∧ a ∈ side ∧ b ∈ side.

(** The side-adjacency rule: no two consecutive letters on one side. *)
Definition no_adjacent_same_side (gs : list (list ascii)) (w : list ascii)
    : Prop :=
  ∀ i a b, w !! i = Some a → w !! S i = Some b → ¬ same_side gs a b.

Definition in_box (gs : list (list ascii)) (w : list ascii) : Prop :=
  ∀ c, c ∈ w → c ∈ mjoin gs.

(** The first letter of [w], if any, is not on the side with index [prev]. *)
Definition avoids_side (gs : list (list ascii)) (prev : Z) (w : list ascii)
    : Prop :=
  ∀ ch i side, head w = Some ch → gs !! i = Some side → ch ∈ side →
               Z.of_nat i ≠ prev.

(** The letters of a word taken one by one from the sides, never from the
    side used just before ([prev] is the index of that side). *)
Inductive side_walk (gs : list (list ascii)) : Z → list ascii → Prop :=
  | side_walk_nil prev : side_walk gs prev []
  | side_walk_cons prev i side ch rest :
      gs !! i = Some side → ch ∈ side → Z.of_nat i ≠ prev →
      side_walk gs (Z.of_nat i) rest →
      side_walk gs prev (ch :: rest).

(** The distinct letters of a list of words, and the letters of the box. *)
Definition letterSet (ws : list (list ascii)) : gset ascii :=
  list_to_set (mjoin ws).
Definition boxLetters (gs : list (list ascii)) : gset ascii :=
  list_to_set (mjoin gs).

(** ** Fixtures *)

(** The box of the spec's scenarios. *)
Definition boxABCD : gameState :=
  GameState [s "ABC"; s "DEF"; s "GHI"; s "JKL"] [].

Definition dictADG : trie := buildTrie [s "ADG"; s "GJA"].
Definition dictOnlyADG : trie := buildTrie [s "ADG"].
Definition dictCAT : trie := buildTrie [s "CAT"].
Definition linesCATS : list (list ascii) := [s "CATS"; s "CAT"].

(** ** Chains and solutions *)

(** A call that returns or panics, but neither exits nor runs out of
    fuel. *)
Definition returns_or_panics {A} (o : outcome A) : Prop :=
  o = Panic ∨ ∃ a, o = Ret a.

(** A box-valid word as the filter produces it: a dictionary word of at
    least three letters, all from the box, no two consecutive ones on the
    same side. *)
Definition BoxValid (t : trie) (gs : list (list ascii)) (w : list ascii)
    : Prop :=
  is_terminal t w = true ∧ 3 ≤ length w ∧ in_box gs w
  ∧ no_adjacent_same_side gs w.

(** Box-validity in the words of the glossary: a dictionary word obeying
    the side-adjacency rule, with no lower bound on its length. *)
Definition GlossaryBoxValid (t : trie) (gs : list (list ascii))
    (w : list ascii) : Prop :=
  is_terminal t w = true ∧ in_box gs w ∧ no_adjacent_same_side gs w.

(** [w'] starts with the last letter of [w]. *)
Definition chained (w w' : list ascii) : Prop :=
  ∃ c, last w = Some c ∧ head w' = Some c.

(** A chain over a notion of valid word: valid words, each starting with
    the last letter of the one before, none occurring twice. *)
Definition Chain (valid : list ascii → Prop) (chain : list (list ascii))
    : Prop :=
  Forall valid chain ∧ NoDup chain
  ∧ ∀ i w w', chain !! i = Some w → chain !! S i = Some w' → chained w w'.

(** A solution: a chain of exactly three words whose letters cover the
    box. *)
Definition Solution (valid : list ascii → Prop) (gs : list (list ascii))
    (chain : list (list ascii)) : Prop :=
  Chain valid chain ∧ length chain = 3 ∧ boxLetters gs ⊆ letterSet chain.

(** The last letter of every box-valid word starts some dictionary entry,
    so that the search never looks up a missing child of the root. *)
Definition NoDangling (t : trie) (gs : list (list ascii)) : Prop :=
  ∀ w c, BoxValid t gs w → last w = Some c → is_Some (children t !! c).

(** The last letter of a word lies on a side of the box. *)
Definition ends_in_box (gs : list (list ascii)) (w : list ascii) : Prop :=
  ∃ c, last w = Some c ∧ c ∈ mjoin gs.

(** The words the search tries after [chain]. *)
Definition continuations (dictionary : trie) (game : gameState)
    (chain : list (list ascii)) : list (list ascii) :=
  match last chain ≫= last with
  | Some c =>
      match validWordsStartingWith dictionary game [c] with
      | Ret ws => ws
      | _ => []
      end
  | None => []
  end.

(** The complete chains the search reaches from [chain] in [n] more
    words. *)
Fixpoint chains_from (dictionary : trie) (game : gameState) (n : nat)
    (chain : list (list ascii)) : list (list (list ascii)) :=
  match n with
  | 0 => if isGameComplete chain then [chain] else []
  | S n' =>
      filter (λ next, bool_decide (next ∈ chain) = false)
             (continuations dictionary game chain)
      ≫= λ next, chains_from dictionary game n' (chain ++ [next])
  end.

(** A dictionary with a two-letter word that links two longer ones. *)
Definition dictLinked : trie :=
  buildTrie [s "ADBECF"; s "FG"; s "GJHKIL"; s "LEA"].

(** Settle a decidable closed proposition by evaluation. *)
Ltac decide_by_compute := apply (bool_decide_unpack _); vm_compute; exact I.

(** An executable test for [NoDangling]. *)
Definition no_dangling_b (t : trie) (game : gameState) : bool :=
  forallb (λ w, match last w with
                | Some c => bool_decide (is_Some (children t !! c))
                | None => true
                end)
          (validWords t game).

(** An executable test for the side-adjacency rule. *)
Fixpoint no_adjacent_b (gs : list (list ascii)) (w : list ascii) : bool :=
  match w with
  | a :: (b :: _) as w' =>
      negb (existsb (λ side, bool_decide (a ∈ side) && bool_decide (b ∈ side))
                    gs)
      && no_adjacent_b gs w'
  | _ => true
  end.

(** The chains the search counts, in the order it meets them. *)
Definition solutions (dictionary : trie) (game : gameState)
    : list (list (list ascii)) :=
  sortWords (validWords dictionary game)
  ≫= λ w, chains_from dictionary game 2 [w].

(** ** Notions for the trie built by [loadWords] *)

(** A line of the word list that [loadWords] does not skip. *)
Definition accepted (line : list ascii) : Prop :=
  ContainsAny line filtered = false.

(** Every node of [t] without children, [t] itself included, is marked
    complete. *)
Definition Leafy (t : trie) : Prop :=
  ∀ w node, descend t w = Some node → children node = ∅ →
            complete node = true.

(** The same below the root: the root of a dictionary is never a word. *)
Definition SubLeafy (t : trie) : Prop :=
  ∀ c next, children t !! c = Some next → Leafy next.

(** Strictly ascending character codes. *)
Definition rune_lt (a b : ascii) : Prop := (rune_code a < rune_code b)%N.

(** Go's [<] on strings as a relation. *)
Definition str_before (x y : list ascii) : Prop := str_lt x y = true.

(** The words [validWordsStartingWith] returns for a letter with a child at
    the root; nothing for a letter without one. *)
Definition startingWith (dictionary : trie) (game : gameState) (ch : ascii)
    : list (list ascii) :=
  match children dictionary !! ch with
  | Some _ =>
      match validWordsStartingWith dictionary game [ch] with
      | Ret ws => ws
      | _ => []
      end
  | None => []
  end.

(** What [trimLeft] returns does not start with white space. *)
Definition starts_clean (w : list ascii) : Prop :=
  ∀ c, head w = Some c → isSpace c = false.

(** The word list behind [dictLinked], as a file would hold it. *)
Definition linesLinked : list (list ascii) :=
  [s "adbecf"; s "fg"; s "gjhkil"; s "lea"].

(** * Properties *)

(** ** Induction over tries *)

Lemma map_fold_max_le (m : gmap ascii nat) k h :
  m !! k = Some h → h ≤ map_fold (λ _ h acc, h `max` acc) 0 m.
Proof.
  intros Hk. rewrite (map_fold_delete_L _ _ k h m); [lia | | done].
  intros; lia.
Qed.

Lemma trie_height_child t ch next :
  children t !! ch = Some next → trie_height next < trie_height t.
Proof.
  intros Hch. destruct t as [c m]; simpl in *.
  apply Nat.lt_succ_r, (map_fold_max_le _ ch).
  by rewrite lookup_fmap, Hch.
Qed.

Lemma trie_child_ind (P : trie → Prop) :
  (∀ t, (∀ ch next, children t !! ch = Some next → P next) → P t) →
  ∀ t, P t.
Proof.
  intros step t.
  remember (trie_height t) as h eqn:Hh.
  revert t Hh. induction (lt_wf h) as [h _ IH]; intros t ->.
  apply step; intros ch next Hch.
  eapply IH; [by eapply trie_height_child | done].
Qed.

(** ** The recursion equations as the source has them *)

Lemma validWordHelper_unfold gs t letters prev :
  validWordHelper gs t letters prev =
  indexed gs ≫= λ '(i, group),
    if decide (Z.of_nat i = prev) then []
    else group ≫= λ ch,
      match children t !! ch with
      | Some next =>
          (if complete next && bool_decide (2 ≤ length letters)
           then [letters ++ [ch]] else [])
          ++ validWordHelper gs next (letters ++ [ch]) (Z.of_nat i)
      | None => []
      end.
Proof.
  destruct t as [c m]; simpl.
  apply list_bind_ext; [|done]. intros [i group].
  destruct (decide _); [done|].
  apply list_bind_ext; [|done]. intros ch.
  rewrite lookup_fmap. by destruct (m !! ch).
Qed.

Lemma allValidWords_helper_unfold curr :
  allValidWords_helper curr =
  sortedChildren curr ≫= λ ch,
    match children curr !! ch with
    | Some next =>
        if bool_decide (size (children next) = 0) then [[ch]]
        else (if complete next then [[ch]] else [])
             ++ ((ch ::.) <$> allValidWords_helper next)
    | None => []
    end.
Proof.
  destruct curr as [c m]; simpl.
  apply list_bind_ext; [|done]. intros ch.
  rewrite lookup_fmap. by destruct (m !! ch).
Qed.

(** ** The side-avoiding filter *)

Lemma elem_of_indexed {A} (l : list A) i x :
  (i, x) ∈ indexed l ↔ l !! i = Some x.
Proof.
  unfold indexed. rewrite elem_of_lookup_imap. split.
  - by intros (j & y & [= -> ->] & ?).
  - intros ?. by exists i, x.
Qed.

Lemma is_terminal_cons t ch w :
  is_terminal t (ch :: w) =
  match children t !! ch with
  | Some next => is_terminal next w
  | None => false
  end.
Proof. unfold is_terminal; simpl. by destruct (children t !! ch). Qed.

(** What [validWordHelper] returns, exactly. *)
Lemma validWordHelper_elem gs t letters prev w :
  w ∈ validWordHelper gs t letters prev ↔
  ∃ path, path ≠ [] ∧ w = letters ++ path ∧ side_walk gs prev path
          ∧ is_terminal t path = true ∧ 3 ≤ length w.
Proof.
  split.
  - revert letters prev w.
    induction t as [t IH] using trie_child_ind; intros letters prev w.
    rewrite validWordHelper_unfold.
    intros ([i side] & Hw & Hi%elem_of_indexed)%list_elem_of_bind.
    destruct (decide (Z.of_nat i = prev)) as [|Hne]; [by apply elem_of_nil in Hw|].
    apply list_elem_of_bind in Hw as (ch & Hw & Hch).
    destruct (children t !! ch) as [next|] eqn:Hnext;
      [|by apply elem_of_nil in Hw].
    apply elem_of_app in Hw as [Hw|Hw].
    + destruct (complete next) eqn:Hc; simpl in Hw;
        [|by apply elem_of_nil in Hw].
      case_bool_decide; [|by apply elem_of_nil in Hw].
      apply list_elem_of_singleton in Hw as ->.
      exists [ch]. split_and!; [done|done| | |].
      * econstructor; [done..|constructor].
      * rewrite is_terminal_cons, Hnext. unfold is_terminal; simpl. done.
      * rewrite length_app; simpl; lia.
    + apply (IH ch next Hnext) in Hw as (path & ? & -> & ? & ? & Hlen).
      exists (ch :: path). split_and!; [done| | | |].
      * by rewrite <-app_assoc.
      * by econstructor.
      * by rewrite is_terminal_cons, Hnext.
      * done.
  - intros (path & Hne & -> & Hwalk & Hterm & Hlen).
    revert t letters prev Hne Hwalk Hterm Hlen.
    induction path as [|ch path IH]; intros t letters prev Hne Hwalk Hterm Hlen;
      [done|].
    inversion Hwalk as [|? i side ? ? Hi Hch Hlast Hrest]; subst.
    rewrite is_terminal_cons in Hterm.
    destruct (children t !! ch) as [next|] eqn:Hnext; [|done].
    rewrite validWordHelper_unfold.
    apply list_elem_of_bind. exists (i, side).
    split; [|by apply elem_of_indexed].
    rewrite decide_False by done.
    apply list_elem_of_bind. exists ch. split; [|done].
    rewrite Hnext. apply elem_of_app.
    destruct path as [|ch' path].
    + left. unfold is_terminal in Hterm; simpl in Hterm. rewrite Hterm; simpl.
      rewrite length_app in Hlen; simpl in Hlen.
      rewrite bool_decide_true by lia. by apply list_elem_of_singleton.
    + right. replace (letters ++ ch :: ch' :: path)
        with ((letters ++ [ch]) ++ ch' :: path) by by rewrite <-app_assoc.
      apply IH; [done|done|done|]. by rewrite <-app_assoc.
Qed.

(** With pairwise distinct letters, a letter names its side. *)
Lemma side_unique (gs : list (list ascii)) i j side1 side2 (c : ascii) :
  NoDup (mjoin gs) →
  gs !! i = Some side1 → gs !! j = Some side2 → c ∈ side1 → c ∈ side2 →
  i = j.
Proof.
  revert i j. induction gs as [|side gs IH]; intros i j Hnd Hi Hj H1 H2; [done|].
  simpl in Hnd. apply NoDup_app in Hnd as (_ & Hdisj & Hnd).
  destruct i as [|i], j as [|j]; simpl in *; simplify_eq; [done| | |].
  - exfalso. apply (Hdisj c H1), list_elem_of_join.
    exists side2. split; [done|]. by eapply list_elem_of_lookup_2.
  - exfalso. apply (Hdisj c H2), list_elem_of_join.
    exists side1. split; [done|]. by eapply list_elem_of_lookup_2.
  - f_equal. by eapply IH.
Qed.

Lemma no_adjacent_same_side_cons gs a b w :
  no_adjacent_same_side gs (a :: b :: w) ↔
  ¬ same_side gs a b ∧ no_adjacent_same_side gs (b :: w).
Proof.
  split.
  - intros H. split; [by apply (H 0)|].
    intros i x y ??. by apply (H (S i)).
  - intros [Hab H] [|i] x y ??; simplify_eq/=; [done|]. by eapply H.
Qed.

Lemma side_walk_sound gs prev w :
  NoDup (mjoin gs) → side_walk gs prev w →
  in_box gs w ∧ no_adjacent_same_side gs w ∧ avoids_side gs prev w.
Proof.
  intros Hnd. induction 1 as [|prev i side ch rest Hi Hch Hlast Hwalk IH].
  - split_and!; [intros c Hc; inversion Hc|by intros []|by intros ???].
  - destruct IH as (Hbox & Hadj & Havoid). split_and!.
    + intros c [->|?]%elem_of_cons; [|by apply Hbox].
      apply list_elem_of_join. exists side. split; [done|].
      by eapply list_elem_of_lookup_2.
    + destruct rest as [|b rest]; [by intros [|[]]|].
      apply no_adjacent_same_side_cons. split; [|done].
      intros (side' & [j Hj]%list_elem_of_lookup & Ha & Hb).
      assert (j = i) as -> by exact (side_unique gs j i side' side ch Hnd Hj Hi Ha Hch).
      by eapply (Havoid b i side').
    + intros c j side' [= <-] Hj Hc.
      by rewrite (side_unique gs j i side' side ch).
Qed.

Lemma side_walk_complete gs prev w :
  in_box gs w → no_adjacent_same_side gs w → avoids_side gs prev w →
  side_walk gs prev w.
Proof.
  revert prev. induction w as [|a w IH]; intros prev Hbox Hadj Havoid;
    [constructor|].
  assert (a ∈ mjoin gs) as (side & Ha & [i Hi]%list_elem_of_lookup)%list_elem_of_join
    by (apply Hbox; by left).
  econstructor; [done|done|by eapply Havoid|].
  apply IH.
  - intros c ?. apply Hbox. by right.
  - destruct w as [|b w]; [by intros []|].
    by apply no_adjacent_same_side_cons in Hadj as [_ ?].
  - intros b j side' Hhead Hj Hb Hji.
    apply Nat2Z.inj in Hji as ->.
    destruct w as [|b' w]; simplify_eq/=.
    apply no_adjacent_same_side_cons in Hadj as [Hab _].
    apply Hab. exists side. split_and!; [by eapply list_elem_of_lookup_2|done..].
Qed.

(** *** validWordsStartingWith *)

Lemma has_prefix_singleton c w : has_prefix [c] w = bool_decide (head w = Some c).
Proof.
  destruct w as [|b w]; simpl; [done|].
  rewrite andb_true_r. apply bool_decide_ext. naive_solver.
Qed.

Lemma Contains_singleton side c : Contains side [c] = true ↔ c ∈ side.
Proof.
  induction side as [|b side IH].
  - cbn. split; [done|by intros ?%elem_of_nil].
  - cbn [Contains]. rewrite has_prefix_singleton, orb_true_iff, IH.
    rewrite bool_decide_eq_true, elem_of_cons. simpl.
    split; (intros [?|?]; [left; congruence|by right]).
Qed.

(** The side found for a single letter is the first one holding it. *)
Lemma activeGroupFrom_singleton k gs c :
  (activeGroupFrom k gs [c] = (-1)%Z ∧ ∀ side, side ∈ gs → c ∉ side)
  ∨ ∃ i side, activeGroupFrom k gs [c] = Z.of_nat (k + i)
              ∧ gs !! i = Some side ∧ c ∈ side.
Proof.
  revert k. induction gs as [|side gs IH]; intros k; simpl.
  - left. split; [done|]. by intros ? ?%elem_of_nil.
  - destruct (Contains side [c]) eqn:Hc.
    + right. exists 0, side. rewrite Nat.add_0_r.
      by apply Contains_singleton in Hc.
    + destruct (IH (S k)) as [[-> Hnone]|(i & side' & -> & ? & ?)].
      * left. split; [done|]. intros side' [->|?]%elem_of_cons; [|by apply Hnone].
        rewrite <-Contains_singleton. by rewrite Hc.
      * right. exists (S i), side'. split_and!; [f_equal; lia|done|done].
Qed.

(** For a single letter, [validWordsStartingWith] either finds the letter on
    no side and exits, or goes on from the child of the root for that letter
    with the letter's side forbidden. *)
Lemma validWordsStartingWith_cases dictionary game c :
  ((c ∉ mjoin (groupings game))
   ∧ validWordsStartingWith dictionary game [c] = Fatal)
  ∨ ∃ i side, groupings game !! i = Some side ∧ c ∈ side
      ∧ validWordsStartingWith dictionary game [c]
        = validWordHelper_ptr (groupings game) (children dictionary !! c)
                              [c] (Z.of_nat i).
Proof.
  unfold validWordsStartingWith.
  change (index [c] 0%Z) with (Ret c). unfold mbind, outcome_bind, obind.
  destruct (activeGroupFrom_singleton 0 (groupings game) c)
    as [[-> Hno]|(i & side & -> & ? & ?)].
  - left. split; [|done].
    intros (side & ? & ?)%list_elem_of_join. by destruct (Hno side).
  - right. exists i, side. by rewrite decide_False by lia.
Qed.

Lemma validWordsStartingWith_Ret dictionary game c ws :
  validWordsStartingWith dictionary game [c] = Ret ws →
  ∃ i side, (groupings game) !! i = Some side ∧ c ∈ side ∧
    validWordHelper_ptr (groupings game) (children dictionary !! c) [c]
                        (Z.of_nat i) = Ret ws.
Proof.
  destruct (validWordsStartingWith_cases dictionary game c)
    as [[_ ->]|(i & side & ? & ? & ->)]; [done|eauto].
Qed.

(** In a box, a nil node makes [validWordHelper] panic whatever side is
    forbidden: another side has letters. *)
Lemma validWordHelper_ptr_nil gs letters prev :
  BoxLayout gs → validWordHelper_ptr gs None letters prev = Panic.
Proof.
  intros (Hlen & Hsides & _). unfold validWordHelper_ptr.
  assert (∃ j other, gs !! j = Some other ∧ Z.of_nat j ≠ prev ∧ other ≠ [])
    as (j & other & Hj & Hprev & Hother).
  { destruct gs as [|g0 [|g1 gs]]; [done..|].
    apply Forall_cons in Hsides as [H0 [H1 _]%Forall_cons].
    destruct (decide (prev = 0%Z)) as [->|].
    - exists 1, g1. split_and!; [done|done|]. by intros ->.
    - exists 0, g0. split_and!; [done|done|]. by intros ->. }
  assert (existsb (λ '(i, group),
            bool_decide (Z.of_nat i ≠ prev) && bool_decide (group ≠ []))
            (indexed gs) = true) as ->; [|done].
  apply existsb_exists. exists (j, other). split.
  - by apply list_elem_of_In, elem_of_indexed.
  - by rewrite !bool_decide_true.
Qed.

Lemma validWordsStartingWith_child dictionary game c node :
  c ∈ mjoin (groupings game) →
  children dictionary !! c = Some node →
  ∃ ws, validWordsStartingWith dictionary game [c] = Ret ws.
Proof.
  intros Hc Hnode.
  destruct (validWordsStartingWith_cases dictionary game c)
    as [[? _]|(i & side & _ & _ & ->)]; [done|].
  rewrite Hnode. by eexists.
Qed.

Lemma validWordsStartingWith_elem dictionary game c ws w :
  validWordsStartingWith dictionary game [c] = Ret ws → w ∈ ws →
  ∃ path, w = c :: path ∧ side_walk (groupings game) (-1)%Z w
          ∧ is_terminal dictionary w = true ∧ 3 ≤ length w.
Proof.
  intros (i & side & Hi & Hc & Hptr)%validWordsStartingWith_Ret Hw.
  unfold validWordHelper_ptr in Hptr.
  destruct (children dictionary !! c) as [node|] eqn:Hnode.
  - simplify_eq. apply validWordHelper_elem in Hw
      as (path & _ & -> & Hwalk & Hterm & Hlen).
    change ([c] ++ path) with (c :: path) in *.
    exists path. split_and!; [done| | |done].
    + econstructor; [done|done|lia|done].
    + by rewrite is_terminal_cons, Hnode.
  - destruct (existsb _ _); simplify_eq. by apply elem_of_nil in Hw.
Qed.

(** * The claims about the side-avoiding filter *)

Lemma snoc_of_nonempty {A} (l : list A) :
  l ≠ [] → ∃ l' x, l = l' ++ [x].
Proof.
  intros Hne. destruct (last l) as [x|] eqn:Hlast.
  - apply last_Some in Hlast as [l' ->]. eauto.
  - by apply last_None in Hlast.
Qed.

Lemma BoxLayout_NoDup gs : BoxLayout gs → NoDup (mjoin gs).
Proof. by intros (_ & _ & ?). Qed.

(** C2. Every word returned by [validWordHelper] is the accumulated letters
    followed by a path whose last node is terminal, recorded with at least
    two letters accumulated before the last one, and whose consecutive
    letters never lie on one side (the first avoiding the forbidden side);
    hence the words of [validWords] and of [validWordsStartingWith] have no
    two consecutive letters on the same side. *)
Theorem constraint_filter_sound dictionary game :
  BoxLayout (groupings game) →
  (∀ node letters prev w,
     w ∈ validWordHelper (groupings game) node letters prev →
     ∃ path ch,
       w = letters ++ path ++ [ch]
       ∧ is_terminal node (path ++ [ch]) = true
       ∧ 2 ≤ length (letters ++ path)
       ∧ no_adjacent_same_side (groupings game) (path ++ [ch])
       ∧ avoids_side (groupings game) prev (path ++ [ch]))
  ∧ (∀ w, w ∈ validWords dictionary game →
          no_adjacent_same_side (groupings game) w)
  ∧ (∀ c ws w, validWordsStartingWith dictionary game [c] = Ret ws → w ∈ ws →
               no_adjacent_same_side (groupings game) w).
Proof.
  intros Hnd%BoxLayout_NoDup. split_and!.
  - intros node letters prev w
      (path & (p & ch & ->)%snoc_of_nonempty & -> & Hwalk & Hterm & Hlen)
        %validWordHelper_elem.
    apply side_walk_sound in Hwalk as (_ & ? & ?); [|done].
    exists p, ch. split_and!; [done..| |done|done].
    rewrite !length_app in *; simpl in *; lia.
  - intros w (path & _ & -> & Hwalk & _)%validWordHelper_elem.
    by apply side_walk_sound in Hwalk as (_ & ? & _).
  - intros c ws w Hret Hw.
    destruct (validWordsStartingWith_elem _ _ _ _ _ Hret Hw)
      as (path & _ & Hwalk & _).
    by apply side_walk_sound in Hwalk as (_ & ? & _).
Qed.

Lemma constraint_filter_sound_witness :
  no_adjacent_same_side (groupings boxABCD) (s "ADG").
Proof.
  apply (constraint_filter_sound dictADG boxABCD).
  - decide_by_compute.
  - vm_compute. repeat constructor.
Defined.

(** C10. Every word returned by [validWords], or by
    [validWordsStartingWith] for a single letter, has at least three
    letters. *)
Theorem valid_words_at_least_three dictionary game :
  (∀ w, w ∈ validWords dictionary game → 3 ≤ length w)
  ∧ (∀ c ws w, validWordsStartingWith dictionary game [c] = Ret ws → w ∈ ws →
               3 ≤ length w).
Proof.
  split.
  - by intros w (path & _ & _ & _ & _ & ?)%validWordHelper_elem.
  - intros c ws w Hret Hw.
    by destruct (validWordsStartingWith_elem _ _ _ _ _ Hret Hw)
      as (path & _ & _ & _ & ?).
Qed.

Lemma valid_words_at_least_three_witness :
  3 ≤ length (s "GJA").
Proof.
  apply (proj2 (valid_words_at_least_three dictADG boxABCD)
               "G"%char [s "GJA"] (s "GJA")).
  - vm_compute. reflexivity.
  - vm_compute. repeat constructor.
Defined.

(** C9. For a letter that lies on a side of the box but has no child at the
    root, [validWordsStartingWith] hands a nil node to [validWordHelper]
    and panics on its first map access. *)
Theorem validWordsStartingWith_nil_child dictionary game c :
  BoxLayout (groupings game) →
  c ∈ mjoin (groupings game) →
  children dictionary !! c = None →
  validWordsStartingWith dictionary game [c] = Panic.
Proof.
  intros Hbox Hc Hnone.
  destruct (validWordsStartingWith_cases dictionary game c)
    as [[Hforeign _]|(i & side & _ & _ & ->)].
  - (* the letter is on a side: the fatal exit is not taken *)
    done.
  - (* the root has no child for the letter: the node passed on is nil *)
    rewrite Hnone. by apply validWordHelper_ptr_nil.
Qed.

Lemma validWordsStartingWith_nil_child_witness :
  validWordsStartingWith dictADG boxABCD (s "D") = Panic.
Proof.
  apply validWordsStartingWith_nil_child.
  - decide_by_compute.
  - vm_compute. repeat constructor.
  - vm_compute. reflexivity.
Defined.

(** The panic reaches [numberOfSolutions]: a box-valid word whose last
    letter starts no dictionary word brings the whole count down. *)
Example numberOfSolutions_nil_child :
  numberOfSolutions dictOnlyADG boxABCD = Panic.
Proof. vm_compute. reflexivity. Qed.

(** C5, as the code has it. A single letter that lies on no side makes
    [validWordsStartingWith] end the process through [log.Fatalf]; nothing
    is returned to the caller. *)
Theorem validWordsStartingWith_foreign_letter dictionary game c :
  c ∉ mjoin (groupings game) →
  validWordsStartingWith dictionary game [c] = Fatal.
Proof.
  intros Hno.
  destruct (validWordsStartingWith_cases dictionary game c)
    as [[_ ->]|(i & side & Hi%list_elem_of_lookup_2 & Hc & _)]; [done|].
  destruct Hno. apply list_elem_of_join. eauto.
Qed.

Lemma validWordsStartingWith_foreign_letter_witness :
  validWordsStartingWith dictADG boxABCD (s "Z") = Fatal.
Proof.
  apply validWordsStartingWith_foreign_letter. decide_by_compute.
Defined.

(** C5, as the spec states it, fails: no value, error or not, comes back
    for the letter Z in the box ABC, DEF, GHI, JKL. *)
Lemma foreign_letter_not_returned :
  ("Z"%char ∉ mjoin (groupings boxABCD))
  ∧ ¬ ∃ ws, validWordsStartingWith dictADG boxABCD (s "Z") = Ret ws.
Proof.
  split; [decide_by_compute|].
  intros [ws Hws]. vm_compute in Hws. discriminate.
Qed.

(** * The claims about the dictionary trie *)

(** What [isWordValid] computes: the path exists. The [complete] flag of
    the node reached is never read. *)
Lemma isWordValid_descend t word :
  isWordValid t word = true ↔ is_Some (descend t word).
Proof.
  revert t. induction word as [|ch word IH]; intros t; simpl.
  - split; [by eexists|done].
  - destruct (children t !! ch) as [next|]; [apply IH|].
    split; [done|by intros [? ?]].
Qed.

(** C3 fails on the code. In the trie of the single word CAT, the prefix CA
    reaches a node that is not terminal, and [isWordValid] accepts it. *)
Theorem isWordValid_accepts_prefix :
  isWordValid dictCAT (s "CA") = true
  ∧ is_terminal dictCAT (s "CA") = false
  ∧ is_terminal dictCAT (s "CAT") = true.
Proof. vm_compute. done. Qed.

(** C4 fails on the code. Both lines CATS and CAT are accepted, but CAT
    arrives when its node already exists, so the node is never marked
    terminal and [allValidWords] with the empty prefix lists CATS alone;
    with the two lines swapped both words are listed. *)
Theorem allValidWords_depends_on_line_order :
  Forall (λ word, ContainsAny word filtered = false) linesCATS
  ∧ loadWords (Some linesCATS) = Some (buildTrie linesCATS)
  ∧ is_terminal (buildTrie linesCATS) (s "CAT") = false
  ∧ allValidWords (buildTrie linesCATS) [] = [s "CATS"]
  ∧ allValidWords (buildTrie (reverse linesCATS)) [] = [s "CAT"; s "CATS"].
Proof. split; [by repeat constructor|]. vm_compute. done. Qed.

(** *** explore *)

Lemma walk_descend t w :
  match walk t w with
  | inl node => descend t w = Some node
  | inr _ => descend t w = None
  end.
Proof.
  revert t. induction w as [|ch w IH]; intros t; simpl; [done|].
  destruct (children t !! ch) as [next|]; [apply IH|done].
Qed.

(** C8. [explore] on [.reset] returns the empty prefix and no error; on
    [.valid] it returns the prefix unchanged; on any other token it
    returns an error and the unchanged prefix when the uppercased
    prefix+token is no path of the trie, the empty prefix when the path
    ends in a node without children, and the uppercased prefix+token
    otherwise, the last two without error. *)
Theorem explore_result t token currentPrefix :
  let r := explore t token currentPrefix in
  let newWord := ToUpper (currentPrefix ++ token) in
  (token = s ".reset" → ex_word r = [] ∧ ex_err r = None)
  ∧ (token = s ".valid" → ex_word r = currentPrefix ∧ ex_err r = None)
  ∧ (token ≠ s ".reset" → token ≠ s ".valid" →
     (descend t newWord = None →
        ex_word r = currentPrefix ∧ is_Some (ex_err r))
     ∧ (∀ node, descend t newWord = Some node → children node = ∅ →
        ex_word r = [] ∧ ex_err r = None)
     ∧ (∀ node, descend t newWord = Some node → children node ≠ ∅ →
        ex_word r = newWord ∧ ex_err r = None)).
Proof.
  intros r newWord. subst r. unfold explore. split_and!.
  - intros ->. by rewrite decide_True.
  - intros ->. rewrite decide_False by done. by rewrite decide_True.
  - intros Hreset Hvalid. rewrite !decide_False by done.
    fold newWord. pose proof (walk_descend t newWord) as Hwalk.
    destruct (walk t newWord) as [node|ch]; split_and!.
    + by rewrite Hwalk.
    + intros node' Hd Hnone. rewrite Hwalk in Hd. simplify_eq.
      rewrite decide_True; [done|]. by apply map_size_empty_iff.
    + intros node' Hd Hsome. rewrite Hwalk in Hd. simplify_eq.
      rewrite decide_False; [done|]. by apply map_size_non_empty_iff.
    + intros _. split; [done|by eexists].
    + intros ?. by rewrite Hwalk.
    + intros ?. by rewrite Hwalk.
Qed.

Lemma explore_result_witness :
  (ex_word (explore dictCAT (s "x") (s "ca")) = s "ca"
   ∧ is_Some (ex_err (explore dictCAT (s "x") (s "ca"))))
  ∧ (ex_word (explore dictCAT (s "t") (s "ca")) = []
     ∧ ex_err (explore dictCAT (s "t") (s "ca")) = None)
  ∧ (ex_word (explore dictCAT (s "a") (s "c")) = s "CA"
     ∧ ex_err (explore dictCAT (s "a") (s "c")) = None)
  ∧ (ex_word (explore dictCAT (s ".reset") (s "ca")) = []
     ∧ ex_err (explore dictCAT (s ".reset") (s "ca")) = None)
  ∧ (ex_word (explore dictCAT (s ".valid") (s "ca")) = s "ca"
     ∧ ex_err (explore dictCAT (s ".valid") (s "ca")) = None).
Proof.
  destruct (explore_result dictCAT (s "x") (s "ca")) as (_ & _ & Hx).
  destruct (explore_result dictCAT (s "t") (s "ca")) as (_ & _ & Ht).
  destruct (explore_result dictCAT (s "a") (s "c")) as (_ & _ & Ha).
  destruct (explore_result dictCAT (s ".reset") (s "ca")) as (Hreset & _).
  destruct (explore_result dictCAT (s ".valid") (s "ca")) as (_ & Hvalid & _).
  destruct Hx as (Hx & _); [done..|].
  destruct Ht as (_ & Ht & _); [done..|].
  destruct Ha as (_ & _ & Ha); [done..|].
  split_and!.
  - apply Hx. vm_compute. reflexivity.
  - apply Hx. vm_compute. reflexivity.
  - eapply Ht; [vm_compute; reflexivity|reflexivity].
  - eapply Ht; [vm_compute; reflexivity|reflexivity].
  - eapply Ha; [vm_compute; reflexivity|vm_compute; done].
  - eapply Ha; [vm_compute; reflexivity|vm_compute; done].
  - by apply Hreset.
  - by apply Hreset.
  - by apply Hvalid.
  - by apply Hvalid.
Defined.

(** * The coverage test *)

Lemma size_add_letter (ch : ascii) (letters : gset ascii) :
  size ({[ch]} ∪ letters) ≤ S (size letters).
Proof.
  rewrite size_union_alt, size_singleton.
  apply le_n_S, subseteq_size. set_solver.
Qed.

Lemma isGameComplete_word_spec letters w :
  size letters < 12 →
  match isGameComplete_word letters w with
  | None => 12 ≤ size (letters ∪ list_to_set w)
  | Some letters' => letters' = letters ∪ list_to_set w ∧ size letters' < 12
  end.
Proof.
  revert letters. induction w as [|ch w IH]; intros letters Hlt; simpl.
  - split; [set_solver|done].
  - pose proof (size_add_letter ch letters).
    destruct (decide (size ({[ch]} ∪ letters) = 12)) as [Heq|Hne].
    + rewrite <-Heq. apply subseteq_size. set_solver.
    + specialize (IH ({[ch]} ∪ letters) ltac:(lia)).
      destruct (isGameComplete_word _ w) as [letters'|].
      * destruct IH as [-> ?]. split; [set_solver|done].
      * etrans; [exact IH|]. apply subseteq_size. set_solver.
Qed.

Lemma isGameComplete_from_spec letters ws :
  size letters < 12 →
  isGameComplete_from letters ws = true ↔ 12 ≤ size (letters ∪ letterSet ws).
Proof.
  unfold letterSet.
  revert letters. induction ws as [|w ws IH]; intros letters Hlt; simpl.
  - rewrite bool_decide_eq_true.
    rewrite (right_id_L ∅ (∪)). lia.
  - pose proof (isGameComplete_word_spec letters w Hlt) as Hw.
    rewrite list_to_set_app_L.
    destruct (isGameComplete_word letters w) as [letters'|].
    + destruct Hw as [-> Hlt']. rewrite (IH _ Hlt').
      by rewrite (assoc_L (∪)).
    + split; [intros _|done]. etrans; [exact Hw|].
      apply subseteq_size. set_solver.
Qed.

(** [isGameComplete] answers whether twelve distinct letters were seen. *)
Lemma isGameComplete_twelve ws :
  isGameComplete ws = true ↔ 12 ≤ size (letterSet ws).
Proof.
  unfold isGameComplete. rewrite isGameComplete_from_spec.
  - by rewrite (left_id_L ∅ (∪)).
  - rewrite size_empty. lia.
Qed.

Lemma BoxLayout_twelve gs : BoxLayout gs → size (boxLetters gs) = 12.
Proof.
  intros (Hlen & Hsides & Hnd). unfold boxLetters.
  rewrite size_list_to_set by done.
  destruct gs as [|a [|b [|c [|d [|]]]]]; simplify_eq/=.
  repeat (apply Forall_cons in Hsides as [? Hsides]).
  rewrite !length_app. simpl. lia.
Qed.

Lemma isGameComplete_covers gs ws :
  BoxLayout gs → letterSet ws ⊆ boxLetters gs →
  isGameComplete ws = true ↔ letterSet ws = boxLetters gs.
Proof.
  intros Hbox%BoxLayout_twelve Hsub. rewrite isGameComplete_twelve. split.
  - intros Hsize. apply set_subseteq_size_eq; [done|lia].
  - intros ->. lia.
Qed.

(** C6, as the code has it. [isGameComplete] is true exactly when the words
    hold at least twelve distinct letters; when every letter of the words is
    a letter of the box, that is exactly when the distinct letters of the
    words are the twelve letters of the box. *)
Theorem isGameComplete_spec gs ws :
  (isGameComplete ws = true ↔ 12 ≤ size (letterSet ws))
  ∧ (BoxLayout gs → letterSet ws ⊆ boxLetters gs →
     (isGameComplete ws = true ↔ letterSet ws = boxLetters gs)).
Proof.
  split; [apply isGameComplete_twelve|apply isGameComplete_covers].
Qed.

Lemma isGameComplete_spec_witness :
  isGameComplete [s "ADBECF"; s "FGJHKIL"] = true
  ↔ letterSet [s "ADBECF"; s "FGJHKIL"] = boxLetters (groupings boxABCD).
Proof.
  apply (isGameComplete_spec (groupings boxABCD)); decide_by_compute.
Defined.

(** C6, as the spec states it, fails: thirteen distinct letters, one of
    them outside the box, are reported complete. *)
Lemma isGameComplete_thirteen_letters :
  isGameComplete [s "ABCDEFGHIJKLM"] = true
  ∧ size (letterSet [s "ABCDEFGHIJKLM"]) = 13
  ∧ letterSet [s "ABCDEFGHIJKLM"] ≠ boxLetters (groupings boxABCD).
Proof.
  split_and!; [by vm_compute|by vm_compute|decide_by_compute].
Qed.

(** * The chain search *)

(** ** The 64-bit counter *)

Lemma wrap64_add (x y : Z) : wrap64 (wrap64 x + y) = wrap64 (x + y).
Proof.
  unfold wrap64.
  replace ((x + 2 ^ 63) mod 2 ^ 64 - 2 ^ 63 + y + 2 ^ 63)%Z
    with ((x + 2 ^ 63) mod 2 ^ 64 + y)%Z by lia.
  rewrite Zplus_mod_idemp_l. do 2 f_equal. lia.
Qed.

Lemma int_add_of_nat (a b : nat) :
  int_add (int_of_nat a) (int_of_nat b) = int_of_nat (a + b).
Proof.
  unfold int_add, int_of_nat.
  rewrite wrap64_add, (Z.add_comm (Z.of_nat a)), wrap64_add.
  f_equal. lia.
Qed.

Lemma int_add_swap (acc x y : Z) :
  int_add (int_add acc x) y = int_add (int_add acc y) x.
Proof. unfold int_add. rewrite !wrap64_add. f_equal. lia. Qed.

(** ** The summing loop *)

Lemma sumLoop_ext {A} skip (f g : A → outcome Z) l acc :
  (∀ x, x ∈ l → skip x = false → f x = g x) →
  sumLoop skip f l acc = sumLoop skip g l acc.
Proof.
  revert acc. induction l as [|x l IH]; intros acc Hfg; simpl; [done|].
  destruct (skip x) eqn:Hskip.
  - apply IH. intros y ??. apply Hfg; [by right|done].
  - rewrite (Hfg x) by (done || by left).
    unfold mbind, outcome_bind, obind. destruct (g x); [|done..].
    apply IH. intros y ??. apply Hfg; [by right|done].
Qed.

Lemma sumLoop_returns_or_panics {A} skip (f : A → outcome Z) l acc :
  (∀ x, x ∈ l → skip x = false → returns_or_panics (f x)) →
  returns_or_panics (sumLoop skip f l acc).
Proof.
  revert acc. induction l as [|x l IH]; intros acc Hf; simpl.
  - right. by eexists.
  - assert (∀ y, y ∈ l → skip y = false → returns_or_panics (f y)) as Hl
      by (intros y ??; apply Hf; [by right|done]).
    destruct (skip x) eqn:Hskip; [by apply IH|].
    destruct (Hf x) as [->|[r ->]]; [by left|done|by left|].
    by apply IH.
Qed.

(** The loop counts: when every call returns the size of a list, the loop
    returns the size of all of them together. *)
Lemma sumLoop_count {A B} skip (f : A → outcome Z) (F : A → list B) l a :
  (∀ x, x ∈ l → skip x = false → f x = Ret (int_of_nat (length (F x)))) →
  sumLoop skip f l (int_of_nat a) =
  Ret (int_of_nat (a + length (filter (λ x, skip x = false) l ≫= F))).
Proof.
  revert a. induction l as [|x l IH]; intros a Hf; simpl.
  - by rewrite Nat.add_0_r.
  - assert (∀ y, y ∈ l → skip y = false
                 → f y = Ret (int_of_nat (length (F y)))) as Hl
      by (intros y ??; apply Hf; [by right|done]).
    rewrite filter_cons. destruct (skip x) eqn:Hskip.
    + rewrite decide_False by done. by apply IH.
    + rewrite decide_True by done. rewrite (Hf x) by (done || by left).
      unfold mbind at 1, outcome_bind, obind.
      rewrite int_add_of_nat, (IH _ Hl). csimpl.
      rewrite length_app. do 2 f_equal. lia.
Qed.

(** The order of the candidates does not matter to the loop, as long as no
    call exits the process. *)
Lemma sumLoop_Permutation {A} (f : A → outcome Z) l l' acc :
  (∀ x, x ∈ l → returns_or_panics (f x)) →
  l ≡ₚ l' →
  sumLoop (λ _, false) f l acc = sumLoop (λ _, false) f l' acc.
Proof.
  intros Hf Hperm. revert acc Hf.
  induction Hperm as [|x l l' Hperm IH|x y l|l l' l'' Hperm IH Hperm' IH'];
    intros acc Hf.
  - done.
  - simpl. unfold mbind, outcome_bind, obind. destruct (f x); [|done..].
    apply IH. intros z ?. apply Hf. by right.
  - simpl. unfold mbind, outcome_bind, obind.
    destruct (Hf x) as [Hx|[rx Hx]]; [by right; left|..];
      destruct (Hf y) as [Hy|[ry Hy]]; try (by left); rewrite Hx, Hy;
      try done.
    by rewrite int_add_swap.
  - rewrite IH by done. apply IH'.
    intros z Hz. apply Hf. by rewrite Hperm.
Qed.

(** A panicking call brings the loop down, wherever it stands. *)
Lemma sumLoop_Panic {A} (f : A → outcome Z) l x acc :
  (∀ y, y ∈ l → returns_or_panics (f y)) →
  x ∈ l → f x = Panic →
  sumLoop (λ _, false) f l acc = Panic.
Proof.
  intros Hf Hx Hpanic. revert acc.
  induction l as [|y l IH]; intros acc; [by apply elem_of_nil in Hx|].
  simpl. unfold mbind, outcome_bind, obind.
  apply elem_of_cons in Hx as [<-|Hx]; [by rewrite Hpanic|].
  destruct (Hf y) as [->|[r ->]]; [by left|done|].
  apply IH; [|done]. intros z ?. apply Hf. by right.
Qed.

(** ** The ranking *)

Lemma str_lt_asym x y : str_lt x y = true → str_lt y x = false.
Proof.
  revert y. induction x as [|a x IH]; intros [|b y]; simpl; try done.
  intros [Hab|[Hab Hxy]%andb_true_iff]%orb_true_iff.
  - apply N.ltb_lt in Hab. apply orb_false_iff. split.
    + apply N.ltb_ge. lia.
    + rewrite bool_decide_false; [done|]. intros ->. lia.
  - apply bool_decide_eq_true in Hab as ->.
    rewrite N.ltb_irrefl, (IH _ Hxy). simpl. by rewrite andb_false_r.
Qed.

Lemma byLengthThenAlphabetically_asym x y :
  byLengthThenAlphabetically x y = true →
  byLengthThenAlphabetically y x = false.
Proof.
  unfold byLengthThenAlphabetically.
  intros [Hgt|[Heq Hlt]%andb_true_iff]%orb_true_iff.
  - apply bool_decide_eq_true in Hgt.
    rewrite !bool_decide_false by lia. done.
  - apply bool_decide_eq_true in Heq.
    rewrite bool_decide_false by lia. by rewrite (str_lt_asym _ _ Hlt), andb_false_r.
Qed.

#[local] Instance ranked_total : Total ranked.
Proof.
  intros x y. unfold ranked.
  destruct (byLengthThenAlphabetically y x) eqn:Hyx; [right|by left].
  by apply byLengthThenAlphabetically_asym.
Qed.

(** [sortWords] leaves the words in an order the comparison accepts. *)
Lemma sortWords_Sorted l : Sorted ranked (sortWords l).
Proof. apply (Sorted_merge_sort ranked). Qed.

(** ** Words the search can stand on *)

(** A word whose last letter lies on a side of the box. *)
Lemma side_walk_last gs prev w c :
  side_walk gs prev w → last w = Some c → c ∈ mjoin gs.
Proof.
  induction 1 as [|prev i side ch rest Hi Hch _ Hwalk IH]; [done|].
  destruct rest as [|ch' rest].
  - intros [= <-]. apply list_elem_of_join. exists side.
    split; [done|by eapply list_elem_of_lookup_2].
  - rewrite last_cons_cons. apply IH.
Qed.

Lemma index_last {A} (l : list A) :
  index l (Z.of_nat (length l) - 1)%Z =
  match last l with
  | Some x => Ret x
  | None => Panic
  end.
Proof.
  unfold index. destruct l as [|x l] using rev_ind; [done|].
  rewrite last_snoc, length_app; simpl.
  destruct (Z.ltb_spec (Z.of_nat (length l + 1) - 1) 0); [lia|].
  replace (Z.to_nat (Z.of_nat (length l + 1) - 1)) with (length l) by lia.
  by rewrite list_lookup_middle.
Qed.

(** For a letter of the box, [validWordsStartingWith] returns or panics. *)
Lemma validWordsStartingWith_returns_or_panics dictionary game c :
  c ∈ mjoin (groupings game) →
  returns_or_panics (validWordsStartingWith dictionary game [c]).
Proof.
  intros Hc.
  destruct (validWordsStartingWith_cases dictionary game c)
    as [[? _]|(i & side & _ & _ & ->)]; [done|].
  unfold validWordHelper_ptr.
  destruct (children dictionary !! c); [right; by eexists|].
  destruct (existsb _ _); [by left|right; by eexists].
Qed.

Lemma helper_returns_or_panics dictionary game fuel chain :
  chain ≠ [] → Forall (ends_in_box (groupings game)) chain →
  4 ≤ length chain + fuel → length chain ≤ 3 →
  returns_or_panics (helper dictionary game fuel chain).
Proof.
  revert chain. induction fuel as [|fuel IH]; intros chain Hne Hends Hfuel Hlen.
  { lia. }
  simpl. rewrite index_last.
  destruct (last chain) as [lastWord|] eqn:Hlast; [|by apply last_None in Hlast].
  unfold mbind at 1, outcome_bind at 1, obind at 1. rewrite index_last.
  assert (ends_in_box (groupings game) lastWord) as (c & -> & Hc).
  { eapply Forall_forall; [exact Hends|]. by apply last_Some_elem_of. }
  unfold mbind at 1, outcome_bind at 1, obind at 1.
  pose proof (validWordsStartingWith_returns_or_panics dictionary game c Hc)
    as [Hws|[ws Hws]]; [rewrite Hws; by left|].
  rewrite Hws. unfold mbind at 1, outcome_bind at 1, obind at 1.
  destruct (decide (length chain = 3)); [right; by eexists|].
  apply sumLoop_returns_or_panics. intros next Hnext _.
  apply IH.
  - by destruct chain.
  - apply Forall_app. split; [done|]. apply Forall_singleton.
    destruct (validWordsStartingWith_elem _ _ _ _ _ Hws Hnext)
      as (path & -> & Hwalk & _).
    destruct (last (c :: path)) as [c'|] eqn:Hc'; [|by apply last_None in Hc'].
    exists c'. split; [done|]. by eapply side_walk_last.
  - rewrite length_app; simpl. lia.
  - rewrite length_app; simpl. lia.
Qed.

(** ** The candidate lists hold each box-valid word once *)

Lemma NoDup_indexed {A} (l : list A) : NoDup (indexed l).
Proof.
  apply NoDup_alt. intros i j [k x] Hi Hj. unfold indexed in *.
  rewrite list_lookup_imap in Hi, Hj.
  destruct (l !! i), (l !! j); by simplify_eq/=.
Qed.

Lemma NoDup_side (gs : list (list ascii)) i side :
  NoDup (mjoin gs) → gs !! i = Some side → NoDup side.
Proof.
  revert i. induction gs as [|g gs IH]; intros i Hnd Hi; [done|].
  simpl in Hnd. apply NoDup_app in Hnd as (? & _ & ?).
  destruct i; simplify_eq/=; [done|by eapply IH].
Qed.

Lemma validWordHelper_step_shape gs next letters ch prev (b : bool) y :
  y ∈ (if b then [letters ++ [ch]] else [])
      ++ validWordHelper gs next (letters ++ [ch]) prev →
  ∃ rest, y = letters ++ ch :: rest.
Proof.
  intros [Hy|Hy]%elem_of_app.
  - destruct b; [|by apply elem_of_nil in Hy].
    apply list_elem_of_singleton in Hy as ->. by exists [].
  - apply validWordHelper_elem in Hy as (path & _ & -> & _).
    exists path. by rewrite <-app_assoc.
Qed.

Lemma validWordHelper_NoDup gs t letters prev :
  NoDup (mjoin gs) → NoDup (validWordHelper gs t letters prev).
Proof.
  intros Hnd. revert letters prev.
  induction t as [t IH] using trie_child_ind; intros letters prev.
  rewrite validWordHelper_unfold.
  (* a word of the result names the letter, hence the side, it came from *)
  assert (∀ i side y,
    y ∈ (if decide (Z.of_nat i = prev) then []
         else side ≫= λ ch,
           match children t !! ch with
           | Some next =>
               (if complete next && bool_decide (2 ≤ length letters)
                then [letters ++ [ch]] else [])
               ++ validWordHelper gs next (letters ++ [ch]) (Z.of_nat i)
           | None => []
           end) →
    ∃ ch rest, ch ∈ side ∧ y = letters ++ ch :: rest) as Hshape.
  { intros i side y Hy. destruct (decide _); [by apply elem_of_nil in Hy|].
    apply list_elem_of_bind in Hy as (ch & Hy & Hch).
    destruct (children t !! ch); [|by apply elem_of_nil in Hy].
    apply validWordHelper_step_shape in Hy as [rest ->]. eauto. }
  apply NoDup_bind; [| |apply NoDup_indexed].
  - intros [i side] [j side'] y Hi%elem_of_indexed Hj%elem_of_indexed Hy Hy'.
    apply Hshape in Hy as (ch & rest & Hch & ->).
    apply Hshape in Hy' as (ch' & rest' & Hch' & Heq).
    apply app_inv_head in Heq. simplify_eq.
    assert (i = j) as -> by by eapply (side_unique gs i j side side' ch').
    by simplify_eq.
  - intros [i side] Hi%elem_of_indexed.
    destruct (decide _); [constructor|].
    apply NoDup_bind; [| |by eapply NoDup_side].
    + intros ch ch' y _ _ Hy Hy'.
      destruct (children t !! ch); [|by apply elem_of_nil in Hy].
      destruct (children t !! ch'); [|by apply elem_of_nil in Hy'].
      apply validWordHelper_step_shape in Hy as [rest ->].
      apply validWordHelper_step_shape in Hy' as [rest' Heq].
      apply app_inv_head in Heq. by simplify_eq.
    + intros ch _. destruct (children t !! ch) as [next|] eqn:Hnext;
        [|constructor].
      apply NoDup_app. split_and!.
      * destruct (_ && _); [apply NoDup_singleton|constructor].
      * intros y Hy (path & Hne & Heq & _)%validWordHelper_elem.
        destruct (_ && _); [|by apply elem_of_nil in Hy].
        apply list_elem_of_singleton in Hy as ->.
        apply (f_equal length) in Heq. rewrite !length_app in Heq.
        destruct path; [done|simpl in Heq; lia].
      * by eapply IH.
Qed.

Lemma BoxValid_side_walk dictionary gs w :
  NoDup (mjoin gs) →
  BoxValid dictionary gs w ↔
  side_walk gs (-1)%Z w ∧ is_terminal dictionary w = true ∧ 3 ≤ length w.
Proof.
  intros Hnd. unfold BoxValid. split.
  - intros (? & ? & ? & ?). split_and!; [|done..].
    apply side_walk_complete; [done..|]. intros ??????; lia.
  - intros ((? & ? & _)%side_walk_sound & ? & ?); done.
Qed.

(** [validWords] lists exactly the box-valid words, each once. *)
Lemma validWords_spec dictionary game :
  NoDup (mjoin (groupings game)) →
  NoDup (validWords dictionary game)
  ∧ ∀ w, w ∈ validWords dictionary game
         ↔ BoxValid dictionary (groupings game) w.
Proof.
  intros Hnd. split; [by apply validWordHelper_NoDup|].
  intros w. rewrite BoxValid_side_walk by done.
  unfold validWords. rewrite validWordHelper_elem. split.
  - by intros (path & _ & -> & ? & ? & ?).
  - intros (? & ? & ?). exists w. split_and!; [|done..].
    intros ->. simpl in *; lia.
Qed.

(** When [validWordsStartingWith] returns for a letter, it lists exactly
    the box-valid words starting with that letter, each once. *)
Lemma validWordsStartingWith_spec dictionary game c ws :
  NoDup (mjoin (groupings game)) →
  validWordsStartingWith dictionary game [c] = Ret ws →
  NoDup ws
  ∧ ∀ w, w ∈ ws ↔ BoxValid dictionary (groupings game) w ∧ head w = Some c.
Proof.
  intros Hnd Hret.
  pose proof (λ w, validWordsStartingWith_elem _ _ _ _ w Hret) as Helem.
  apply validWordsStartingWith_Ret in Hret as (i & side & Hi & Hc & Hptr).
  unfold validWordHelper_ptr in Hptr.
  assert (∀ w, BoxValid dictionary (groupings game) w → head w = Some c →
            ∃ node path, children dictionary !! c = Some node ∧ w = c :: path
              ∧ path ≠ [] ∧ side_walk (groupings game) (Z.of_nat i) path
              ∧ is_terminal node path = true ∧ 3 ≤ length w) as Hvalid.
  { intros w (Hwalk & Hterm & Hlen)%BoxValid_side_walk Hhead; [|done].
    destruct w as [|c' path]; simplify_eq/=.
    rewrite is_terminal_cons in Hterm.
    destruct (children dictionary !! c) as [node|]; [|done].
    inversion Hwalk as [|? j side' ? ? Hj Hc' _ Hrest]; subst.
    assert (j = i) as -> by by eapply (side_unique _ j i side' side c).
    exists node, path. split_and!; [done|done| |done|done|simpl; lia].
    intros ->. simpl in *; lia. }
  destruct (children dictionary !! c) as [node|] eqn:Hnode.
  - simplify_eq. split; [by apply validWordHelper_NoDup|].
    intros w. split.
    + intros Hw. destruct (Helem w Hw) as (path & -> & ? & ? & ?).
      split; [|done]. by apply BoxValid_side_walk.
    + intros [Hw Hhead].
      destruct (Hvalid w Hw Hhead) as (? & path & ? & -> & ? & ? & ? & ?).
      simplify_eq. apply validWordHelper_elem. by exists path.
  - destruct (existsb _ _); simplify_eq. split; [constructor|].
    intros w. split; [by intros ?%elem_of_nil|].
    intros [Hw Hhead]. by destruct (Hvalid w Hw Hhead) as (? & ? & ? & _).
Qed.

(** ** Chains *)

Lemma Chain_singleton (valid : list ascii → Prop) w :
  valid w → Chain valid [w].
Proof.
  intros Hw. split_and!; [by apply Forall_singleton|apply NoDup_singleton|].
  by intros [|i] ???.
Qed.

Lemma Chain_app_l valid l1 l2 : Chain valid (l1 ++ l2) → Chain valid l1.
Proof.
  intros (Hall & Hnd & Hadj). split_and!.
  - by apply Forall_app in Hall as [? _].
  - by apply NoDup_app in Hnd as (? & _).
  - intros i w w' Hw Hw'. apply (Hadj i); by apply lookup_app_l_Some.
Qed.

Lemma Chain_snoc valid chain next :
  Chain valid (chain ++ [next]) ↔
  Chain valid chain ∧ valid next ∧ (next ∉ chain)
  ∧ ∀ w, last chain = Some w → chained w next.
Proof.
  split.
  - intros Hchain. pose proof (Chain_app_l _ _ _ Hchain) as Hpre.
    destruct Hchain as (Hall & Hnd & Hadj). split_and!; [done| | |].
    + apply Forall_app in Hall as [_ Hn]. by inversion Hn.
    + apply NoDup_app in Hnd as (_ & Hdisj & _).
      intros Hin. apply (Hdisj next Hin). by left.
    + intros w [chain' ->]%last_Some.
      apply (Hadj (length chain')).
      * rewrite <-app_assoc. by apply list_lookup_middle.
      * apply list_lookup_middle. rewrite length_app; simpl; lia.
  - intros ((Hall & Hnd & Hadj) & Hnext & Hfresh & Hlast). split_and!.
    + apply Forall_app. by split; [|apply Forall_singleton].
    + apply NoDup_app. split_and!; [done| |apply NoDup_singleton].
      intros x Hx ->%list_elem_of_singleton. done.
    + intros i w w' Hw Hw'.
      destruct (decide (S i < length chain)) as [Hlt|Hge].
      * apply (Hadj i); [rewrite lookup_app_l in Hw by lia; done|].
        by rewrite lookup_app_l in Hw'.
      * apply lookup_lt_Some in Hw' as Hbound.
        rewrite length_app in Hbound; simpl in Hbound.
        assert (S i = length chain) as Hi by lia.
        rewrite lookup_app_r in Hw' by lia.
        replace (S i - length chain) with 0 in Hw' by lia.
        simplify_eq/=. apply Hlast.
        rewrite lookup_app_l in Hw by lia.
        rewrite last_lookup, <-Hi. done.
Qed.

(** A box-valid word starting with [c] shows that the search gets the
    continuations for [c]. *)
Lemma validWordsStartingWith_of_valid dictionary game c next :
  BoxValid dictionary (groupings game) next → head next = Some c →
  ∃ ws, validWordsStartingWith dictionary game [c] = Ret ws.
Proof.
  intros (Hterm & _ & Hbox & _) Hhead.
  destruct next as [|c' next]; simplify_eq/=.
  rewrite is_terminal_cons in Hterm.
  destruct (children dictionary !! c) as [node|] eqn:Hnode; [|done].
  eapply validWordsStartingWith_child; [|done]. apply Hbox. by left.
Qed.

Lemma chains_from_shape dictionary game n chain final :
  final ∈ chains_from dictionary game n chain →
  ∃ ext, final = chain ++ ext ∧ length ext = n.
Proof.
  revert chain. induction n as [|n IH]; intros chain; simpl.
  - destruct (isGameComplete chain); [|by intros ?%elem_of_nil].
    intros ->%list_elem_of_singleton. exists []. by rewrite app_nil_r.
  - intros (next & (ext & -> & <-)%IH & _)%list_elem_of_bind.
    exists (next :: ext). by rewrite <-app_assoc.
Qed.

Lemma chains_from_elem dictionary game n chain final :
  NoDup (mjoin (groupings game)) →
  Chain (BoxValid dictionary (groupings game)) chain → chain ≠ [] →
  final ∈ chains_from dictionary game n chain ↔
  (∃ ext, final = chain ++ ext ∧ length ext = n)
  ∧ Chain (BoxValid dictionary (groupings game)) final
  ∧ isGameComplete final = true.
Proof.
  intros Hnd. revert chain. induction n as [|n IH]; intros chain Hchain Hne.
  - simpl. split.
    + destruct (isGameComplete chain) eqn:Hc; [|by intros ?%elem_of_nil].
      intros ->%list_elem_of_singleton. split_and!; [|done..].
      exists []. by rewrite app_nil_r.
    + intros (([|??] & -> & ?) & _ & Hc); [|done].
      rewrite app_nil_r in *. rewrite Hc. by apply list_elem_of_singleton.
  - cbn [chains_from]. rewrite list_elem_of_bind.
    destruct (last chain) as [w|] eqn:Hlast; [|by apply last_None in Hlast].
    split.
    + intros (next & Hfinal & [Hfresh Hnext]%list_elem_of_filter).
      apply bool_decide_eq_false in Hfresh.
      unfold continuations in Hnext. rewrite Hlast in Hnext. simpl in Hnext.
      destruct (last w) as [c|] eqn:Hc; [|by apply elem_of_nil in Hnext].
      simpl in Hnext.
      destruct (validWordsStartingWith dictionary game [c]) as [ws| | |]
        eqn:Hws; try by apply elem_of_nil in Hnext.
      apply (validWordsStartingWith_spec _ _ _ _ Hnd Hws) in Hnext
        as [Hvalid Hhead].
      apply IH in Hfinal as ((ext & -> & <-) & ? & ?).
      * split_and!; [|done..]. exists (next :: ext). by rewrite <-app_assoc.
      * apply Chain_snoc. split_and!; [done..|].
        intros w' ?. simplify_eq. by exists c.
      * by destruct chain.
    + intros (([|next ext] & -> & Hlen) & Hfinal & Hc); [done|].
      simpl in Hlen. replace (chain ++ next :: ext)
        with ((chain ++ [next]) ++ ext) in * by by rewrite <-app_assoc.
      pose proof (Chain_app_l _ _ _ Hfinal) as Hsnoc.
      pose proof Hsnoc as (_ & Hvalid & Hfresh & Hchained)%Chain_snoc.
      destruct (Hchained w Hlast) as (c & Hlastw & Hhead).
      destruct (validWordsStartingWith_of_valid _ _ _ _ Hvalid Hhead)
        as [ws Hws].
      exists next. split.
      * apply IH; [done|by destruct chain|]. split_and!; [|done..].
        exists ext. split; [done|lia].
      * apply list_elem_of_filter. split; [by apply bool_decide_eq_false|].
        unfold continuations. rewrite Hlast. simpl. rewrite Hlastw. simpl.
        rewrite Hws. by apply (validWordsStartingWith_spec _ _ _ _ Hnd Hws).
Qed.

Lemma continuations_NoDup dictionary game chain :
  NoDup (mjoin (groupings game)) →
  NoDup (continuations dictionary game chain).
Proof.
  intros Hnd. unfold continuations.
  destruct (last chain ≫= last) as [c|]; [|constructor].
  destruct (validWordsStartingWith dictionary game [c]) eqn:Hws;
    try constructor.
  by apply (validWordsStartingWith_spec _ _ _ _ Hnd Hws).
Qed.

Lemma chains_from_NoDup dictionary game n chain :
  NoDup (mjoin (groupings game)) →
  NoDup (chains_from dictionary game n chain).
Proof.
  intros Hnd. revert chain. induction n as [|n IH]; intros chain; simpl.
  - destruct (isGameComplete chain); [apply NoDup_singleton|constructor].
  - apply NoDup_bind; [|by intros|].
    + intros next next' final _ _
        (ext & -> & _)%chains_from_shape (ext' & Heq & _)%chains_from_shape.
      rewrite <-!app_assoc in Heq. apply app_inv_head in Heq.
      by simplify_eq/=.
    + apply NoDup_filter. by apply continuations_NoDup.
Qed.

Lemma validWords_ends_in_box dictionary game w :
  w ∈ validWords dictionary game → ends_in_box (groupings game) w.
Proof.
  intros (path & Hne & -> & Hwalk & _)%validWordHelper_elem. simpl.
  destruct (last path) as [c|] eqn:Hc; [|by apply last_None in Hc].
  exists c. split; [done|]. by eapply side_walk_last.
Qed.

Lemma sortWords_Permutation l : sortWords l ≡ₚ l.
Proof. apply merge_sort_Permutation. Qed.

(** ** The helper counts the chains it reaches *)

Lemma BoxValid_last dictionary gs w :
  BoxValid dictionary gs w → ∃ c, last w = Some c.
Proof.
  intros (_ & Hlen & _). destruct (last w) eqn:Hlast; [by eexists|].
  apply last_None in Hlast as ->. simpl in Hlen; lia.
Qed.

Lemma helper_count dictionary game fuel n chain :
  NoDup (mjoin (groupings game)) →
  NoDangling dictionary (groupings game) →
  Chain (BoxValid dictionary (groupings game)) chain → chain ≠ [] →
  length chain + n = 3 → n < fuel →
  helper dictionary game fuel chain
  = Ret (int_of_nat (length (chains_from dictionary game n chain))).
Proof.
  intros Hnd Hdangling. revert n chain.
  induction fuel as [|fuel IH]; intros n chain Hchain Hne Hlen Hfuel; [lia|].
  simpl. rewrite index_last.
  destruct (last chain) as [w|] eqn:Hlast; [|by apply last_None in Hlast].
  unfold mbind at 1, outcome_bind at 1, obind at 1. rewrite index_last.
  assert (BoxValid dictionary (groupings game) w) as Hw.
  { destruct Hchain as (Hall & _).
    eapply Forall_forall; [exact Hall|]. by apply last_Some_elem_of. }
  destruct (BoxValid_last _ _ _ Hw) as [c Hc]. rewrite Hc.
  unfold mbind at 1, outcome_bind at 1, obind at 1.
  assert (∃ ws, validWordsStartingWith dictionary game [c] = Ret ws)
    as [ws Hws].
  { destruct (Hdangling w c Hw Hc) as [node Hnode].
    eapply validWordsStartingWith_child; [|done].
    pose proof Hw as (_ & _ & Hbox & _).
    apply Hbox. by apply last_Some_elem_of. }
  rewrite Hws. unfold mbind at 1, outcome_bind at 1, obind at 1.
  destruct (decide (length chain = 3)) as [Hthree|Hshort].
  - assert (n = 0) as -> by lia. simpl.
    by destruct (isGameComplete chain).
  - destruct n as [|n]; [lia|].
    change 0%Z with (int_of_nat 0).
    rewrite (sumLoop_count _ _
      (λ next, chains_from dictionary game n (chain ++ [next]))).
    + cbn [chains_from]. unfold continuations.
      rewrite Hlast. simpl. rewrite Hc. simpl. by rewrite Hws.
    + intros next Hnext Hfresh%bool_decide_eq_false.
      apply (validWordsStartingWith_spec _ _ _ _ Hnd Hws) in Hnext
        as [Hvalid Hhead].
      apply IH; [|by destruct chain|rewrite length_app; simpl; lia|lia].
      apply Chain_snoc. split_and!; [done..|].
      intros w' ?. simplify_eq. by exists c.
Qed.

(** A box-valid word whose last letter starts no dictionary entry makes
    the whole count panic. *)
Lemma helper_start_returns_or_panics dictionary game w :
  w ∈ validWords dictionary game →
  returns_or_panics (helper dictionary game 3 [w]).
Proof.
  intros Hw. apply helper_returns_or_panics; simpl; [done| |lia|lia].
  apply Forall_singleton. by eapply validWords_ends_in_box.
Qed.

Lemma numberOfSolutions_dangling dictionary game w c :
  BoxLayout (groupings game) →
  BoxValid dictionary (groupings game) w → last w = Some c →
  children dictionary !! c = None →
  numberOfSolutions dictionary game = Panic.
Proof.
  intros Hbox Hw Hc Hnone.
  pose proof (BoxLayout_NoDup _ Hbox) as Hnd.
  unfold numberOfSolutions, numberOfSolutions_fuel, solutionsOver.
  apply sumLoop_Panic with w.
  - intros y Hy. rewrite sortWords_Permutation in Hy.
    by apply helper_start_returns_or_panics.
  - rewrite sortWords_Permutation. by apply validWords_spec.
  - cbn [helper]. rewrite index_last. cbn [last].
    unfold mbind at 1, outcome_bind at 1, obind at 1.
    rewrite index_last, Hc.
    unfold mbind at 1, outcome_bind at 1, obind at 1.
    destruct (validWordsStartingWith_cases dictionary game c)
      as [[Hforeign _]|(i & side & _ & _ & ->)].
    + destruct Hforeign, Hw as (_ & _ & Hin & _).
      apply Hin. by apply last_Some_elem_of.
    + rewrite Hnone, validWordHelper_ptr_nil; done.
Qed.

(** ** The chains counted are the solutions *)

Lemma BoxValid_letters dictionary gs chain :
  Forall (BoxValid dictionary gs) chain → letterSet chain ⊆ boxLetters gs.
Proof.
  intros Hall c (w & Hc & Hw)%elem_of_list_to_set%list_elem_of_join.
  apply elem_of_list_to_set.
  rewrite Forall_forall in Hall. destruct (Hall w Hw) as (_ & _ & Hbox & _).
  by apply Hbox.
Qed.

Lemma solutions_spec dictionary game :
  BoxLayout (groupings game) →
  NoDup (solutions dictionary game)
  ∧ ∀ chain, chain ∈ solutions dictionary game
             ↔ Solution (BoxValid dictionary (groupings game))
                        (groupings game) chain.
Proof.
  intros Hbox. pose proof (BoxLayout_NoDup _ Hbox) as Hnd.
  destruct (validWords_spec dictionary game Hnd) as [Hvw_nd Hvw].
  unfold solutions. split.
  - apply NoDup_bind.
    + intros w w' final _ _ (? & -> & _)%chains_from_shape
        (? & ? & _)%chains_from_shape. by simplify_eq/=.
    + intros w _. by apply chains_from_NoDup.
    + by rewrite sortWords_Permutation.
  - intros chain. rewrite list_elem_of_bind. split.
    + intros (w & Hchain & Hw). rewrite sortWords_Permutation in Hw.
      apply Hvw in Hw.
      apply chains_from_elem in Hchain
        as ((ext & -> & Hlen) & Hchain & Hcomplete);
        [|done|by apply Chain_singleton|done].
      split_and!; [done|simpl; lia|].
      apply (isGameComplete_covers (groupings game)) in Hcomplete as ->;
        [done|done|].
      apply BoxValid_letters with dictionary. by destruct Hchain.
    + intros (Hchain & Hlen & Hcover).
      destruct chain as [|w ext]; [done|]. exists w.
      assert (BoxValid dictionary (groupings game) w) as Hw.
      { destruct Hchain as (Hall & _). by inversion Hall. }
      split; [|by rewrite sortWords_Permutation; apply Hvw].
      apply chains_from_elem; [done|by apply Chain_singleton|done|].
      split_and!; [|done|].
      * exists ext. simpl in *. split; [done|lia].
      * apply (isGameComplete_covers (groupings game)); [done| |].
        -- apply BoxValid_letters with dictionary. by destruct Hchain.
        -- apply (anti_symm (⊆)); [|done].
           apply BoxValid_letters with dictionary. by destruct Hchain.
Qed.

Lemma filter_all {A} (P : A → Prop) `{!∀ x, Decision (P x)} (l : list A) :
  (∀ x, P x) → filter P l = l.
Proof.
  intros HP. induction l as [|x l IH]; [done|].
  rewrite filter_cons, decide_True by done. by f_equal.
Qed.

(** With no dangling last letter, [numberOfSolutions] returns the number of
    chains it goes through. *)
Lemma numberOfSolutions_solutions dictionary game :
  BoxLayout (groupings game) →
  NoDangling dictionary (groupings game) →
  numberOfSolutions dictionary game
  = Ret (int_of_nat (length (solutions dictionary game))).
Proof.
  intros Hbox Hdangling. pose proof (BoxLayout_NoDup _ Hbox) as Hnd.
  unfold numberOfSolutions, numberOfSolutions_fuel, solutionsOver.
  change 0%Z with (int_of_nat 0).
  rewrite (sumLoop_count _ _ (λ w, chains_from dictionary game 2 [w])).
  - by rewrite filter_all.
  - intros w Hw _. rewrite sortWords_Permutation in Hw.
    apply helper_count; [done|done| |done|done|lia].
    apply Chain_singleton. by apply validWords_spec.
Qed.

Lemma int_of_nat_small n :
  (Z.of_nat n < 2 ^ 63)%Z → int_of_nat n = Z.of_nat n.
Proof.
  intros Hn. unfold int_of_nat, wrap64.
  rewrite Z.mod_small; lia.
Qed.

(** ** Executable tests *)

Lemma no_dangling_b_sound dictionary game :
  NoDup (mjoin (groupings game)) →
  no_dangling_b dictionary game = true →
  NoDangling dictionary (groupings game).
Proof.
  intros Hnd Hb w c Hw%validWords_spec Hc; [|done].
  unfold no_dangling_b in Hb. rewrite forallb_forall in Hb.
  apply list_elem_of_In, Hb in Hw. rewrite Hc in Hw.
  by apply bool_decide_eq_true in Hw.
Qed.

Lemma no_adjacent_b_sound gs w :
  no_adjacent_b gs w = true → no_adjacent_same_side gs w.
Proof.
  induction w as [|a [|b w] IH]; [by intros _ []|by intros _ [|[]]|].
  intros [Hab Hrest]%andb_true_iff.
  apply no_adjacent_same_side_cons. split; [|by apply IH].
  intros (side & Hside & Ha & Hb).
  apply negb_true_iff, not_true_iff_false in Hab. apply Hab.
  apply existsb_exists. exists side. split; [by apply list_elem_of_In|].
  by rewrite !bool_decide_true.
Qed.

(** A chain of three glossary-valid words, from checks that evaluate. *)
Lemma glossary_solution_intro t gs w1 w2 w3 :
  Forall (λ w, is_terminal t w = true ∧ Forall (λ c, c ∈ mjoin gs) w
               ∧ no_adjacent_b gs w = true) [w1; w2; w3] →
  NoDup [w1; w2; w3] → chained w1 w2 → chained w2 w3 →
  boxLetters gs ⊆ letterSet [w1; w2; w3] →
  Solution (GlossaryBoxValid t gs) gs [w1; w2; w3].
Proof.
  intros Hall Hnd H12 H23 Hcover. split_and!; [|done..].
  split_and!; [|done|].
  - eapply Forall_impl; [exact Hall|]. intros w (? & Hbox & ?).
    split_and!; [done| |by apply no_adjacent_b_sound].
    intros c Hc. by eapply Forall_forall in Hbox.
  - intros [|[|[|i]]] w w' ??; by simplify_eq/=.
Qed.

(** ** Fuel *)

(** Any depth that lets a chain grow to three words gives the same
    outcome. *)
Lemma helper_fuel dictionary game fuel fuel' chain :
  length chain ≤ 3 → 4 ≤ length chain + fuel → 4 ≤ length chain + fuel' →
  helper dictionary game fuel chain = helper dictionary game fuel' chain.
Proof.
  revert fuel' chain.
  induction fuel as [|fuel IH]; intros [|fuel'] chain Hlen Hfuel Hfuel';
    [lia..|].
  simpl. unfold mbind, outcome_bind, obind.
  destruct (index chain _) as [lastWord| | |]; [|done..].
  destruct (index lastWord _) as [lastByte| | |]; [|done..].
  destruct (validWordsStartingWith _ _ _) as [nextWords| | |]; [|done..].
  destruct (decide (length chain = 3)); [done|].
  apply sumLoop_ext. intros next _ _.
  apply IH; rewrite length_app; simpl; lia.
Qed.

Lemma numberOfSolutions_fuel_enough dictionary game fuel :
  3 ≤ fuel →
  numberOfSolutions_fuel dictionary game fuel
  = numberOfSolutions dictionary game.
Proof.
  intros Hfuel. unfold numberOfSolutions, numberOfSolutions_fuel, solutionsOver.
  apply sumLoop_ext. intros w _ _. apply helper_fuel; simpl; lia.
Qed.

(** * The claims about the chain count *)

(** C7. Whatever the order in which the box-valid candidate words drive
    the outer loop, the loop ends as [numberOfSolutions] does, which takes
    them sorted by length (descending) and then alphabetically: the same
    count, or the same panic when a last letter has no child at the root;
    the process is never exited and depth three is never exceeded. *)
Theorem numberOfSolutions_order_independent dictionary game candidates :
  candidates ≡ₚ validWords dictionary game →
  solutionsOver dictionary game 3 candidates
  = numberOfSolutions dictionary game
  ∧ returns_or_panics (numberOfSolutions dictionary game).
Proof.
  intros Hperm.
  pose proof (helper_start_returns_or_panics dictionary game) as Hhelper.
  unfold numberOfSolutions, numberOfSolutions_fuel, solutionsOver. split.
  - apply sumLoop_Permutation.
    + intros w Hw. rewrite Hperm in Hw. by apply Hhelper.
    + by rewrite Hperm, sortWords_Permutation.
  - apply sumLoop_returns_or_panics. intros w Hw _.
    rewrite sortWords_Permutation in Hw. by apply Hhelper.
Qed.

Lemma numberOfSolutions_order_independent_witness :
  solutionsOver dictLinked boxABCD 3 [s "LEA"; s "GJHKIL"; s "ADBECF"]
  = numberOfSolutions dictLinked boxABCD.
Proof.
  apply numberOfSolutions_order_independent.
  vm_compute. apply (reverse_Permutation [_; _; _]).
Defined.

(** C1, as the code has it. Where box-valid words are the dictionary words
    of at least three letters, all from the box, with no two consecutive
    letters on one side, and where the last letter of every box-valid word
    starts some dictionary entry, [numberOfSolutions] returns the number
    of chains of exactly three box-valid words in which each word after
    the first starts with the last letter of the word before, no word
    occurs twice, and the letters cover the box: the length of any
    duplicate-free list [sols] of these chains, as a 64-bit [int]. *)
Theorem numberOfSolutions_counts dictionary game sols :
  BoxLayout (groupings game) →
  NoDangling dictionary (groupings game) →
  NoDup sols →
  (∀ chain, chain ∈ sols
            ↔ Solution (BoxValid dictionary (groupings game))
                       (groupings game) chain) →
  numberOfSolutions dictionary game = Ret (int_of_nat (length sols))
  ∧ ((Z.of_nat (length sols) < 2 ^ 63)%Z →
     numberOfSolutions dictionary game = Ret (Z.of_nat (length sols))).
Proof.
  intros Hbox Hdangling Hnd Hsols.
  destruct (solutions_spec dictionary game Hbox) as [Hnd' Hspec].
  assert (sols ≡ₚ solutions dictionary game) as Hperm.
  { apply NoDup_Permutation; [done..|]. intros chain.
    by rewrite Hsols, Hspec. }
  rewrite numberOfSolutions_solutions, <-Hperm by done.
  split; [done|]. intros Hsmall. by rewrite int_of_nat_small.
Qed.

Lemma numberOfSolutions_counts_witness :
  numberOfSolutions dictLinked boxABCD = Ret 1%Z.
Proof.
  assert (BoxLayout (groupings boxABCD)) as Hbox by decide_by_compute.
  apply (numberOfSolutions_counts dictLinked boxABCD
           [[s "GJHKIL"; s "LEA"; s "ADBECF"]]).
  - exact Hbox.
  - apply no_dangling_b_sound; [by apply BoxLayout_NoDup|].
    vm_compute. reflexivity.
  - apply NoDup_singleton.
  - intros chain.
    rewrite <-(proj2 (solutions_spec dictLinked boxABCD Hbox) chain).
    replace (solutions dictLinked boxABCD)
      with [[s "GJHKIL"; s "LEA"; s "ADBECF"]]
      by (vm_compute; reflexivity).
    reflexivity.
  - vm_compute. reflexivity.
Defined.

Lemma glossary_solutions_linked :
  Solution (GlossaryBoxValid dictLinked (groupings boxABCD))
           (groupings boxABCD) [s "GJHKIL"; s "LEA"; s "ADBECF"]
  ∧ Solution (GlossaryBoxValid dictLinked (groupings boxABCD))
             (groupings boxABCD) [s "ADBECF"; s "FG"; s "GJHKIL"].
Proof.
  split; apply glossary_solution_intro;
    try decide_by_compute; by eexists.
Qed.

(** C1, as the spec states it, fails. With the dictionary ADBECF, FG,
    GJHKIL, LEA and the box ABC, DEF, GHI, JKL, two different chains of
    three dictionary words obeying the side-adjacency rule are chained,
    repeat no word and cover the box, one of them through the two-letter
    word FG; [numberOfSolutions] returns 1. *)
Lemma numberOfSolutions_misses_short_word :
  numberOfSolutions dictLinked boxABCD = Ret 1%Z
  ∧ ¬ ∃ sols,
      NoDup sols
      ∧ (∀ chain, chain ∈ sols
                  ↔ Solution (GlossaryBoxValid dictLinked (groupings boxABCD))
                             (groupings boxABCD) chain)
      ∧ numberOfSolutions dictLinked boxABCD = Ret (Z.of_nat (length sols)).
Proof.
  split; [by vm_compute|].
  intros (sols & Hnd & Hsols & Hcount).
  destruct glossary_solutions_linked as [H1%Hsols H2%Hsols].
  assert ([[s "GJHKIL"; s "LEA"; s "ADBECF"];
           [s "ADBECF"; s "FG"; s "GJHKIL"]] ⊆+ sols) as Hsub.
  { apply NoDup_submseteq.
    - decide_by_compute.
    - intros chain [->|[->|[]%elem_of_nil]%elem_of_cons]%elem_of_cons; done. }
  apply submseteq_length in Hsub. simpl in Hsub.
  assert (numberOfSolutions dictLinked boxABCD = Ret 1%Z) as Hone
    by by vm_compute.
  rewrite Hone in Hcount. injection Hcount as Hcount. lia.
Qed.

(** * Further properties of the dictionary trie *)

(** ** Paths after an insertion *)

Lemma descend_app t w1 w2 :
  descend t (w1 ++ w2) = descend t w1 ≫= λ node, descend node w2.
Proof.
  revert t. induction w1 as [|c w1 IH]; intros t; simpl; [done|].
  destruct (children t !! c); [apply IH|done].
Qed.

Lemma descend_insertFrom_cons len i r rest t c w :
  descend (insertFrom len i (r :: rest) t) (c :: w) =
  if decide (c = r)
  then descend (insertFrom len (i + 1)%Z rest
                  (default (Trie (bool_decide (i = len - 1)%Z) ∅)
                           (children t !! r))) w
  else descend t (c :: w).
Proof.
  simpl. rewrite lookup_insert. destruct (decide (r = c)) as [->|Hne].
  - rewrite decide_True by done. by destruct (children t !! c).
  - rewrite decide_False by done. done.
Qed.

(** An insertion keeps every path and the flag of every node on it. *)
Lemma insertFrom_keeps len i upper t w node :
  descend t w = Some node →
  ∃ node', descend (insertFrom len i upper t) w = Some node'
           ∧ complete node' = complete node.
Proof.
  revert i t w node.
  induction upper as [|r rest IH]; intros i t w node Hw; [by exists node|].
  destruct w as [|c w].
  - simplify_eq/=. by eexists.
  - rewrite descend_insertFrom_cons. simpl in Hw.
    destruct (decide (c = r)) as [->|]; [|by exists node].
    destruct (children t !! r) as [next|]; [|done]. simpl. by apply IH.
Qed.

(** The paths after an insertion: the old ones and the prefixes of the
    inserted word. *)
Lemma insertFrom_paths len i upper t w :
  is_Some (descend (insertFrom len i upper t) w)
  ↔ is_Some (descend t w) ∨ w `prefix_of` upper.
Proof.
  split.
  - revert i t w. induction upper as [|r rest IH]; intros i t w; [by left|].
    destruct w as [|c w]; [intros _; right; apply prefix_nil|].
    rewrite descend_insertFrom_cons.
    destruct (decide (c = r)) as [->|]; [|by left].
    intros [Hold|Hpre]%IH; [|right; by apply prefix_cons].
    simpl. destruct (children t !! r) as [next|]; [by left|].
    right. destruct w as [|c' w]; [apply prefix_cons, prefix_nil|].
    simpl in Hold. rewrite lookup_empty in Hold. by destruct Hold.
  - intros [[node Hold]|Hpre].
    + destruct (insertFrom_keeps len i upper t w node Hold) as (? & -> & _).
      by eexists.
    + revert i t w Hpre.
      induction upper as [|r rest IH]; intros i t w Hpre.
      * apply prefix_nil_inv in Hpre as ->. by eexists.
      * destruct w as [|c w]; [by eexists|].
        pose proof (prefix_cons_inv_1 _ _ _ _ Hpre) as ->.
        apply prefix_cons_inv_2 in Hpre.
        rewrite descend_insertFrom_cons, decide_True by done. by apply IH.
Qed.

(** The terminal nodes after an insertion: the old ones, and the node of the
    prefix of length [len - i] when its path is new. *)
Lemma insertFrom_terminal len i upper t w :
  is_terminal (insertFrom len i upper t) w = true
  ↔ is_terminal t w = true
    ∨ (descend t w = None ∧ w `prefix_of` upper
       ∧ (i + Z.of_nat (length w))%Z = len).
Proof.
  revert i t w. induction upper as [|r rest IH]; intros i t w.
  { simpl. split; [by left|]. intros [?|(Hnone & ->%prefix_nil_inv & _)];
      [done|]. done. }
  destruct w as [|c w].
  { unfold is_terminal. simpl. split; [by left|]. by intros [?|[? _]]. }
  unfold is_terminal at 1. rewrite descend_insertFrom_cons.
  destruct (decide (c = r)) as [->|Hne].
  - fold (is_terminal (insertFrom len (i + 1) rest
            (default (Trie (bool_decide (i = len - 1)%Z) ∅)
                     (children t !! r))) w).
    rewrite IH, is_terminal_cons. simpl.
    destruct (children t !! r) as [next|] eqn:Hnext; simpl.
    + split; (intros [?|(? & Hpre & ?)]; [by left|right]).
      * split_and!; [done|by apply prefix_cons|lia].
      * split_and!; [done|by apply prefix_cons_inv_2 in Hpre|lia].
    + split.
      * intros [Hterm|(_ & Hpre & ?)]; right.
        -- destruct w as [|c' w].
           ++ unfold is_terminal in Hterm. simpl in Hterm.
              apply bool_decide_eq_true in Hterm.
              split_and!; [done|apply prefix_cons, prefix_nil|simpl; lia].
           ++ unfold is_terminal in Hterm. simpl in Hterm.
              by rewrite lookup_empty in Hterm.
        -- split_and!; [done|by apply prefix_cons|lia].
      * intros [?|(_ & Hpre%prefix_cons_inv_2 & Hlen)]; [done|].
        destruct w as [|c' w].
        -- left. unfold is_terminal. simpl. apply bool_decide_eq_true.
           simpl in Hlen. lia.
        -- right. split_and!; [|done|lia].
           simpl. by rewrite lookup_empty.
  - fold (is_terminal t (c :: w)). split; [by left|].
    intros [?|(_ & Hpre%prefix_cons_inv_1 & _)]; done.
Qed.

Lemma isWordValid_false t w : isWordValid t w = false ↔ descend t w = None.
Proof.
  rewrite <-not_true_iff_false, isWordValid_descend.
  rewrite <-eq_None_not_Some. done.
Qed.

Lemma length_ToUpper w : length (ToUpper w) = length w.
Proof. apply length_fmap. Qed.

Lemma prefix_same_length {A} (l1 l2 : list A) :
  l1 `prefix_of` l2 → length l1 = length l2 → l1 = l2.
Proof.
  intros [k ->] Hlen. rewrite length_app in Hlen.
  destruct k; [by rewrite app_nil_r|simpl in Hlen; lia].
Qed.

Lemma insertWord_keeps t line w node :
  descend t w = Some node →
  ∃ node', descend (insertWord t line) w = Some node'
           ∧ complete node' = complete node.
Proof.
  intros Hw. unfold insertWord.
  destruct (ContainsAny line filtered); [by exists node|].
  by apply insertFrom_keeps.
Qed.

Lemma insertWord_paths t line w :
  is_Some (descend (insertWord t line) w)
  ↔ is_Some (descend t w) ∨ (accepted line ∧ w `prefix_of` ToUpper line).
Proof.
  unfold insertWord, accepted.
  destruct (ContainsAny line filtered).
  - split; [by left|]. by intros [?|[? _]].
  - rewrite insertFrom_paths. naive_solver.
Qed.

Lemma insertWord_terminal t line w :
  is_terminal (insertWord t line) w = true
  ↔ is_terminal t w = true
    ∨ (accepted line ∧ w = ToUpper line ∧ w ≠ [] ∧ descend t w = None).
Proof.
  unfold insertWord, accepted.
  destruct (ContainsAny line filtered).
  { split; [by left|]. by intros [?|[? _]]. }
  rewrite insertFrom_terminal. split; (intros [?|Hnew]; [by left|right]).
  - destruct Hnew as (Hnone & Hpre & Hlen).
    assert (w = ToUpper line) as ->.
    { apply prefix_same_length; [done|]. rewrite length_ToUpper. lia. }
    split_and!; [done|done| |done]. by intros Heq; rewrite Heq in Hnone.
  - destruct Hnew as (_ & -> & _ & Hnone).
    split_and!; [done|done|]. rewrite length_ToUpper. lia.
Qed.

Lemma buildTrie_snoc lines line :
  buildTrie (lines ++ [line]) = insertWord (buildTrie lines) line.
Proof. apply foldl_snoc. Qed.

(** X1. [loadWords] never removes a path from the trie and never changes
    the [complete] flag of a node that exists: a path present after the
    lines read so far is present after any further lines, and its node
    keeps its flag. *)
Theorem buildTrie_keeps before more w node :
  descend (buildTrie before) w = Some node →
  ∃ node', descend (buildTrie (before ++ more)) w = Some node'
           ∧ complete node' = complete node.
Proof.
  intros Hw. induction more as [|line more IH] using rev_ind.
  - rewrite app_nil_r. by exists node.
  - destruct IH as (node1 & Hnode1 & Hflag1).
    rewrite app_assoc, buildTrie_snoc.
    destruct (insertWord_keeps _ line _ _ Hnode1) as (node2 & ? & ?).
    exists node2. split; [done|congruence].
Qed.

Lemma buildTrie_keeps_witness :
  ∃ node', descend (buildTrie ([s "CAT"] ++ [s "CATS"; s "CAR"])) (s "CAT")
           = Some node'
           ∧ complete node' = true.
Proof.
  destruct (buildTrie_keeps [s "CAT"] [s "CATS"; s "CAR"] (s "CAT")
              (Trie true ∅)) as (node' & ? & ?).
  - vm_compute. reflexivity.
  - by exists node'.
Defined.

(** X2. After [loadWords], [isWordValid] accepts exactly the empty word and
    the prefixes of the uppercased accepted lines. *)
Theorem isWordValid_buildTrie lines w :
  isWordValid (buildTrie lines) w = true
  ↔ w = [] ∨ ∃ line, line ∈ lines ∧ accepted line
                     ∧ w `prefix_of` ToUpper line.
Proof.
  rewrite isWordValid_descend.
  induction lines as [|line lines IH] using rev_ind.
  - split.
    + destruct w as [|c w]; [by left|]. by intros [? ?].
    + intros [->|(? & Hin & _)]; [by eexists|by apply elem_of_nil in Hin].
  - rewrite buildTrie_snoc, insertWord_paths, IH. split.
    + intros [[->|(l & ? & ? & ?)]|[? ?]]; [by left|right..].
      * exists l. split_and!; [|done..]. apply elem_of_app. by left.
      * exists line. split_and!; [|done..]. apply elem_of_app. right. by left.
    + intros [->|(l & [? | ->%list_elem_of_singleton]%elem_of_app & ? & ?)].
      * left. by left.
      * left. right. by exists l.
      * by right.
Qed.

(** X3. [loadWords] marks the node of a word terminal exactly when some
    accepted, non-empty line spells the word (uppercased) and the path of
    the word was not yet in the trie when that line was read. *)
Theorem is_terminal_buildTrie lines w :
  is_terminal (buildTrie lines) w = true
  ↔ ∃ before line after,
      lines = before ++ line :: after ∧ accepted line
      ∧ w = ToUpper line ∧ w ≠ []
      ∧ isWordValid (buildTrie before) w = false.
Proof.
  induction lines as [|x lines IH] using rev_ind.
  - split.
    + destruct w as [|c w]; [done|].
      intros Hterm. by rewrite is_terminal_cons in Hterm.
    + intros (before & ? & ? & Heq & _). by destruct before.
  - rewrite buildTrie_snoc, insertWord_terminal, IH. split.
    + intros [(before & line & after & -> & ?)|(? & ? & ? & ?)].
      * exists before, line, (after ++ [x]). by rewrite <-app_assoc.
      * exists lines, x, []. split_and!; [done..|]. by apply isWordValid_false.
    + intros (before & line & after & Heq & Hacc & Hw & Hne & Hnew).
      destruct after as [|y after _] using rev_ind.
      * apply app_inj_tail in Heq as [-> ->]. right.
        split_and!; [done..|]. by apply isWordValid_false.
      * left. rewrite app_comm_cons, app_assoc in Heq.
        apply app_inj_tail in Heq as [-> ->]. by exists before, line, after.
Qed.

(** ** Leaves of a built trie *)

Lemma Leafy_SubLeafy t : Leafy t → SubLeafy t.
Proof.
  intros Hleafy c next Hnext w node Hw. apply (Hleafy (c :: w)).
  simpl. by rewrite Hnext.
Qed.

Lemma insertFrom_Leafy len i upper t :
  SubLeafy t → (upper = [] → Leafy t) →
  (i + Z.of_nat (length upper))%Z = len →
  Leafy (insertFrom len i upper t).
Proof.
  revert i t. induction upper as [|r rest IH]; intros i t Hsub Hroot Hlen.
  { by apply Hroot. }
  intros [|c w] node.
  - intros [= <-] Hempty. simpl in Hempty.
    by apply insert_non_empty in Hempty.
  - rewrite descend_insertFrom_cons.
    destruct (decide (c = r)) as [->|Hne].
    + apply IH; [| |simpl in Hlen; lia].
      * destruct (children t !! r) as [next|] eqn:Hnext; simpl.
        -- apply Leafy_SubLeafy. by eapply Hsub.
        -- intros c' next' Hc'. simpl in Hc'. by rewrite lookup_empty in Hc'.
      * intros ->. destruct (children t !! r) as [next|] eqn:Hnext; simpl.
        -- by eapply Hsub.
        -- intros [|??] ?; simpl; [|by rewrite lookup_empty].
           intros [= <-] _. simpl. apply bool_decide_eq_true.
           simpl in Hlen. lia.
    + simpl. destruct (children t !! c) as [next|] eqn:Hnext; [|done].
      by apply (Hsub c next).
Qed.

Lemma insertWord_SubLeafy t line : SubLeafy t → SubLeafy (insertWord t line).
Proof.
  intros Hsub. unfold insertWord.
  destruct (ContainsAny line filtered); [done|].
  destruct (ToUpper line) as [|r rest] eqn:Hup; [done|].
  apply Leafy_SubLeafy, insertFrom_Leafy; [done|done|].
  rewrite <-Hup, length_ToUpper. lia.
Qed.

Lemma buildTrie_SubLeafy lines : SubLeafy (buildTrie lines).
Proof.
  induction lines as [|line lines IH] using rev_ind.
  - intros c next. unfold buildTrie; simpl. by rewrite lookup_empty.
  - rewrite buildTrie_snoc. by apply insertWord_SubLeafy.
Qed.

Lemma insertFrom_root_complete len i upper t :
  complete (insertFrom len i upper t) = complete t.
Proof. by destruct upper. Qed.

Lemma buildTrie_root_complete lines : complete (buildTrie lines) = false.
Proof.
  induction lines as [|line lines IH] using rev_ind; [done|].
  rewrite buildTrie_snoc. unfold insertWord.
  destruct (ContainsAny line filtered); [done|].
  by rewrite insertFrom_root_complete.
Qed.

Lemma buildTrie_SubLeafy_nonroot lines w node :
  w ≠ [] → descend (buildTrie lines) w = Some node →
  children node = ∅ → complete node = true.
Proof.
  intros Hne Hw Hleaf. destruct w as [|c w]; [done|]. simpl in Hw.
  destruct (children (buildTrie lines) !! c) as [next|] eqn:Hnext; [|done].
  by apply (buildTrie_SubLeafy lines c next Hnext w node).
Qed.

(** X4. In the trie built by [loadWords] every node without children, the
    root apart, is marked complete, and the root never is: a leaf always
    ends a word of the list. *)
Theorem buildTrie_leaves_complete lines :
  complete (buildTrie lines) = false
  ∧ ∀ w node, w ≠ [] → descend (buildTrie lines) w = Some node →
              children node = ∅ → complete node = true.
Proof.
  split; [apply buildTrie_root_complete|].
  intros w node. apply buildTrie_SubLeafy_nonroot.
Qed.

Lemma buildTrie_leaves_complete_witness :
  complete (Trie true ∅) = true.
Proof.
  apply (proj2 (buildTrie_leaves_complete [s "CAT"]) (s "CAT")).
  - done.
  - vm_compute. reflexivity.
  - reflexivity.
Defined.

(** ** Lines that change nothing *)

Lemma insertFrom_present len i upper t :
  is_Some (descend t upper) → insertFrom len i upper t = t.
Proof.
  revert i t. induction upper as [|r rest IH]; intros i t Hpath; [done|].
  simpl in *. destruct (children t !! r) as [next|] eqn:Hnext;
    [|by destruct Hpath].
  rewrite IH by done. rewrite insert_id by done. by destruct t.
Qed.

(** X5. A line whose uppercased letters already form a path of the trie
    leaves the trie exactly as it is, whether or not the node at the end of
    the path is marked complete: a word that arrives after a longer word it
    is a prefix of is not recorded, and a repeated line changes nothing. *)
Theorem insertWord_present t line :
  isWordValid t (ToUpper line) = true → insertWord t line = t.
Proof.
  intros Hpath%isWordValid_descend. unfold insertWord.
  destruct (ContainsAny line filtered); [done|].
  by apply insertFrom_present.
Qed.

Lemma insertWord_present_witness :
  insertWord (buildTrie [s "cats"]) (s "cat") = buildTrie [s "cats"].
Proof. apply insertWord_present. vm_compute. reflexivity. Defined.

Lemma upper_filtered c :
  bool_decide (upper_rune c ∈ filtered) = bool_decide (c ∈ filtered).
Proof. by destruct c as [[] [] [] [] [] [] [] []]; vm_compute. Qed.

Lemma upper_upper c : upper_rune (upper_rune c) = upper_rune c.
Proof. by destruct c as [[] [] [] [] [] [] [] []]. Qed.

(** X6. [loadWords] does not see the case of the letters of a line: a
    line and its uppercase form are skipped or kept alike and change the
    trie in the same way, so a word list and its uppercased copy build the
    same trie. *)
Theorem buildTrie_ToUpper lines :
  buildTrie (ToUpper <$> lines) = buildTrie lines.
Proof.
  assert (∀ t line, insertWord t (ToUpper line) = insertWord t line) as Hline.
  { intros t line. unfold insertWord.
    assert (ContainsAny (ToUpper line) filtered = ContainsAny line filtered)
      as ->.
    { unfold ContainsAny, ToUpper. induction line as [|c line IH]; [done|].
      csimpl. by rewrite upper_filtered, IH. }
    rewrite length_ToUpper.
    destruct (ContainsAny line filtered); [done|]. f_equal.
    unfold ToUpper. rewrite <-list_fmap_compose. apply list_fmap_ext.
    intros _ c _. apply upper_upper. }
  induction lines as [|line lines IH] using rev_ind; [done|].
  rewrite fmap_app. change (ToUpper <$> [line]) with [ToUpper line].
  by rewrite !buildTrie_snoc, IH, Hline.
Qed.

(** * Further properties of the enumeration of the trie *)

(** ** sortedChildren *)

Lemma rune_code_inj a b : rune_code a = rune_code b → a = b.
Proof.
  unfold rune_code. intros Heq.
  by rewrite <-(ascii_N_embedding a), <-(ascii_N_embedding b), Heq.
Qed.

#[local] Instance rune_le_trans : Transitive rune_le.
Proof. unfold rune_le. intros a b c. lia. Qed.

#[local] Instance rune_le_total : Total rune_le.
Proof. unfold rune_le. intros a b. lia. Qed.

Lemma sortedChildren_elem t c :
  c ∈ sortedChildren t ↔ is_Some (children t !! c).
Proof.
  unfold sortedChildren. rewrite merge_sort_Permutation, list_elem_of_fmap.
  split.
  - intros ([c' next] & -> & Hin%elem_of_map_to_list). by eexists.
  - intros [next Hnext]. exists (c, next). split; [done|].
    by apply elem_of_map_to_list.
Qed.

Lemma strictly_sorted (l : list ascii) :
  StronglySorted rune_le l → NoDup l → StronglySorted rune_lt l.
Proof.
  induction 1 as [|a l Hl IH Hall]; intros Hnd; [constructor|].
  apply NoDup_cons in Hnd as [Hnotin Hnd]. constructor; [by apply IH|].
  rewrite Forall_forall in Hall. apply Forall_forall. intros b Hb.
  pose proof (Hall b Hb) as Hle. unfold rune_le, rune_lt in *.
  destruct (decide (rune_code a = rune_code b)) as [Heq%rune_code_inj|];
    [by subst|lia].
Qed.

Lemma sortedChildren_sorted t : StronglySorted rune_lt (sortedChildren t).
Proof.
  apply strictly_sorted.
  - apply (StronglySorted_merge_sort rune_le).
  - unfold sortedChildren. rewrite merge_sort_Permutation.
    apply NoDup_fst_map_to_list.
Qed.

(** X7. [sortedChildren] returns the letters that have a child, each once,
    in strictly ascending order of their codes. *)
Theorem sortedChildren_spec t :
  StronglySorted rune_lt (sortedChildren t)
  ∧ NoDup (sortedChildren t)
  ∧ ∀ c, c ∈ sortedChildren t ↔ is_Some (children t !! c).
Proof.
  split_and!; [apply sortedChildren_sorted| |apply sortedChildren_elem].
  unfold sortedChildren. rewrite merge_sort_Permutation.
  apply NoDup_fst_map_to_list.
Qed.

(** ** allValidWords *)

Lemma allValidWords_helper_elem curr w :
  w ∈ allValidWords_helper curr
  ↔ w ≠ [] ∧ ∃ node, descend curr w = Some node
                     ∧ (complete node = true ∨ children node = ∅).
Proof.
  split.
  - revert w. induction curr as [curr IH] using trie_child_ind; intros w.
    rewrite allValidWords_helper_unfold.
    intros (ch & Hw & _)%list_elem_of_bind.
    destruct (children curr !! ch) as [next|] eqn:Hnext;
      [|by apply elem_of_nil in Hw].
    case_bool_decide as Hleaf.
    + apply list_elem_of_singleton in Hw as ->. split; [done|].
      exists next. simpl. rewrite Hnext. split; [done|].
      right. by apply map_size_empty_iff.
    + apply elem_of_app in Hw as [Hw|Hw].
      * destruct (complete next) eqn:Hc; [|by apply elem_of_nil in Hw].
        apply list_elem_of_singleton in Hw as ->. split; [done|].
        exists next. simpl. rewrite Hnext. by split; [|left].
      * apply list_elem_of_fmap in Hw as (w' & -> & Hw').
        apply (IH ch next Hnext) in Hw' as (_ & node & ? & ?).
        split; [done|]. exists node. simpl. by rewrite Hnext.
  - revert curr. induction w as [|ch w IH]; intros curr [Hne Hnode]; [done|].
    destruct Hnode as (node & Hw & Hend). simpl in Hw.
    destruct (children curr !! ch) as [next|] eqn:Hnext; [|done].
    rewrite allValidWords_helper_unfold. apply list_elem_of_bind.
    exists ch. split; [|by apply sortedChildren_elem].
    rewrite Hnext. case_bool_decide as Hleaf.
    + apply map_size_empty_iff in Hleaf.
      destruct w as [|c' w]; [by apply list_elem_of_singleton|].
      simpl in Hw. by rewrite Hleaf, lookup_empty in Hw.
    + apply elem_of_app. destruct w as [|c' w].
      * left. simplify_eq/=. destruct Hend as [->|Hempty].
        -- by apply list_elem_of_singleton.
        -- destruct Hleaf. by apply map_size_empty_iff.
      * right. apply list_elem_of_fmap. exists (c' :: w). split; [done|].
        apply IH. split; [done|]. by exists node.
Qed.

(** X8. [allValidWords] lists exactly the words that extend the prefix by
    at least one letter and end in a node that is marked complete or has no
    children. In particular the prefix itself is never listed, and a prefix
    that is no path of the trie gives the empty list. *)
Theorem allValidWords_elem t pre w :
  w ∈ allValidWords t pre
  ↔ ∃ suffix node, suffix ≠ [] ∧ w = pre ++ suffix
                   ∧ descend t w = Some node
                   ∧ (complete node = true ∨ children node = ∅).
Proof.
  unfold allValidWords.
  destruct (descend t pre) as [curr|] eqn:Hpre.
  - rewrite list_elem_of_fmap. split.
    + intros (suffix & -> & (? & node & ? & ?)%allValidWords_helper_elem).
      exists suffix, node. split_and!; [done..| |done].
      by rewrite descend_app, Hpre.
    + intros (suffix & node & ? & -> & Hw & ?).
      rewrite descend_app, Hpre in Hw.
      exists suffix. split; [done|]. apply allValidWords_helper_elem.
      split; [done|]. by exists node.
  - split; [by intros ?%elem_of_nil|].
    intros (suffix & node & _ & -> & Hw & _).
    by rewrite descend_app, Hpre in Hw.
Qed.

(** ** Order of the enumeration *)

Lemma StronglySorted_bind {A B} (R1 : relation A) (R2 : relation B)
    (f : A → list B) l :
  StronglySorted R1 l →
  (∀ x, x ∈ l → StronglySorted R2 (f x)) →
  (∀ x x' y y', R1 x x' → y ∈ f x → y' ∈ f x' → R2 y y') →
  StronglySorted R2 (l ≫= f).
Proof.
  intros Hl Hf Hcross. induction Hl as [|x l Hl IH Hall]; [constructor|].
  csimpl. apply StronglySorted_app_2.
  - intros y y' Hy (x' & Hy' & Hx')%list_elem_of_bind.
    rewrite Forall_forall in Hall. by eapply Hcross; [apply Hall|..].
  - apply Hf. by left.
  - apply IH. intros x' ?. apply Hf. by right.
Qed.

Lemma str_lt_cons a x y : str_lt (a :: x) (a :: y) = str_lt x y.
Proof.
  simpl. by rewrite N.ltb_irrefl, bool_decide_true.
Qed.

Lemma str_lt_app pre x y : str_lt (pre ++ x) (pre ++ y) = str_lt x y.
Proof. induction pre as [|a pre IH]; [done|]. simpl app. by rewrite str_lt_cons. Qed.

Lemma allValidWords_helper_sorted curr :
  StronglySorted str_before (allValidWords_helper curr).
Proof.
  induction curr as [curr IH] using trie_child_ind.
  rewrite allValidWords_helper_unfold.
  assert (∀ ch y,
    y ∈ match children curr !! ch with
        | Some next =>
            if bool_decide (size (children next) = 0) then [[ch]]
            else (if complete next then [[ch]] else [])
                 ++ ((ch ::.) <$> allValidWords_helper next)
        | None => []
        end → ∃ rest, y = ch :: rest) as Hshape.
  { intros ch y Hy. destruct (children curr !! ch); [|by apply elem_of_nil in Hy].
    case_bool_decide.
    - apply list_elem_of_singleton in Hy as ->. by eexists.
    - apply elem_of_app in Hy as [Hy|(? & -> & _)%list_elem_of_fmap];
        [|by eexists].
      destruct (complete t); [|by apply elem_of_nil in Hy].
      apply list_elem_of_singleton in Hy as ->. by eexists. }
  apply (StronglySorted_bind rune_lt); [apply sortedChildren_sorted| |].
  - intros ch _. destruct (children curr !! ch) as [next|] eqn:Hnext;
      [|constructor].
    case_bool_decide; [repeat constructor|].
    apply StronglySorted_app_2.
    + intros y y' Hy (w' & -> & Hw')%list_elem_of_fmap.
      destruct (complete next); [|by apply elem_of_nil in Hy].
      apply list_elem_of_singleton in Hy as ->.
      apply allValidWords_helper_elem in Hw' as [Hne _].
      unfold str_before. rewrite str_lt_cons. by destruct w'.
    + destruct (complete next); repeat constructor.
    + eapply StronglySorted_fmap; [|by eapply IH].
      intros x y. unfold str_before. by rewrite str_lt_cons.
  - intros ch ch' y y' Hlt (rest & ->)%Hshape (rest' & ->)%Hshape.
    unfold str_before, rune_lt in *. simpl.
    apply orb_true_iff. left. by apply N.ltb_lt.
Qed.

(** X9. [allValidWords] returns its words in strictly ascending
    lexicographic order (Go's [<] on strings), hence without duplicates. *)
Theorem allValidWords_sorted t pre :
  StronglySorted str_before (allValidWords t pre).
Proof.
  unfold allValidWords. destruct (descend t pre); [|constructor].
  eapply StronglySorted_fmap; [|apply allValidWords_helper_sorted].
  intros x y. unfold str_before. by rewrite str_lt_app.
Qed.

(** X10. On the trie built by [loadWords], [allValidWords] with the empty
    prefix lists exactly the words whose node is marked terminal: the leaf
    shortcut of the enumeration adds nothing, since every leaf is
    terminal. *)
Theorem allValidWords_buildTrie lines w :
  w ∈ allValidWords (buildTrie lines) [] ↔
  is_terminal (buildTrie lines) w = true.
Proof.
  unfold allValidWords, is_terminal. simpl. rewrite list_elem_of_fmap. split.
  - intros (suffix & -> & (Hne & node & Hw & Hend)%allValidWords_helper_elem).
    simpl. rewrite Hw. destruct Hend as [?|Hleaf]; [done|].
    by eapply buildTrie_SubLeafy_nonroot.
  - destruct (descend (buildTrie lines) w) as [node|] eqn:Hw; [|done].
    intros Hc. exists w. split; [done|].
    apply allValidWords_helper_elem. split; [|exists node; by split; [|left]].
    intros ->. simplify_eq/=. by rewrite buildTrie_root_complete in Hc.
Qed.

(** ** What explore shows *)

Lemma allValidWords_helper_nonempty curr :
  children curr ≠ ∅ → allValidWords_helper curr ≠ [].
Proof.
  induction curr as [curr IH] using trie_child_ind.
  intros (ch & next & Hnext)%map_choose.
  assert (∃ w, w ∈ allValidWords_helper curr) as [w Hw];
    [|by intros Heq; rewrite Heq in Hw; apply elem_of_nil in Hw].
  destruct (decide (children next = ∅)) as [Hleaf|Hinner].
  - exists [ch]. apply allValidWords_helper_elem. split; [done|].
    exists next. simpl. rewrite Hnext. by split; [|right].
  - specialize (IH ch next Hnext Hinner).
    destruct (allValidWords_helper next) as [|w' ws] eqn:Hws; [done|].
    assert (w' ∈ allValidWords_helper next) as Hw'
      by (rewrite Hws; by left).
    apply allValidWords_helper_elem in Hw' as (Hne & node & ? & ?).
    exists (ch :: w'). apply allValidWords_helper_elem. split; [done|].
    exists node. simpl. by rewrite Hnext.
Qed.

(** X11. When [explore] moves to a node that has children, what it prints
    is never empty: at least one child letter and at least one word, at
    most ten, each of them a proper extension of the new prefix that ends
    in a node marked complete or without children. *)
Theorem explore_shows t token currentPrefix newWord childChars first10 :
  ex_printed (explore t token currentPrefix)
  = Some (PrintNode newWord childChars first10) →
  childChars ≠ [] ∧ first10 ≠ [] ∧ length first10 ≤ 10
  ∧ ∀ w, w ∈ first10 →
      ∃ suffix node, suffix ≠ [] ∧ w = newWord ++ suffix
                     ∧ descend t w = Some node
                     ∧ (complete node = true ∨ children node = ∅).
Proof.
  unfold explore.
  destruct (decide (token = s ".reset")); [done|].
  destruct (decide (token = s ".valid")); [done|].
  pose proof (walk_descend t (ToUpper (currentPrefix ++ token))) as Hwalk.
  destruct (walk t _) as [node|ch]; [|done].
  destruct (decide (size (children node) = 0)) as [|Hinner]; [done|].
  intros [= <- <- <-]. apply map_size_non_empty_iff in Hinner.
  assert (allValidWords t (ToUpper (currentPrefix ++ token)) ≠ []) as Hwords.
  { unfold allValidWords. rewrite Hwalk. intros Heq%fmap_nil_inv.
    by apply (allValidWords_helper_nonempty node). }
  split_and!.
  - apply map_choose in Hinner as (c & next & Hc).
    assert (c ∈ sortedChildren node) as Hin
      by (apply sortedChildren_elem; by eexists).
    intros Heq. rewrite Heq in Hin. by apply elem_of_nil in Hin.
  - by destruct (allValidWords t _).
  - rewrite length_take. lia.
  - intros w Hw%subseteq_take. revert Hw.
    unfold allValidWords. rewrite Hwalk.
    intros (suffix & -> & (? & end_ & Hend & ?)%allValidWords_helper_elem)
      %list_elem_of_fmap.
    exists suffix, end_. split_and!; [done..| |done].
    by rewrite descend_app, Hwalk.
Qed.

Lemma explore_shows_witness :
  s "A" ≠ [] ∧ [s "CAT"] ≠ [] ∧ length [s "CAT"] ≤ 10.
Proof.
  destruct (explore_shows dictCAT (s "c") [] (s "C") (s "A") [s "CAT"])
    as (? & ? & ? & _).
  - vm_compute. reflexivity.
  - done.
Defined.

(** * Further properties of the filter and the search *)

(** X12. For a box with pairwise distinct letters, [validWords] lists
    exactly the box-valid words (dictionary words of at least three
    letters, all from the box, no two consecutive ones on a side), each
    once. *)
Theorem validWords_exact dictionary game :
  BoxLayout (groupings game) →
  NoDup (validWords dictionary game)
  ∧ ∀ w, w ∈ validWords dictionary game
         ↔ BoxValid dictionary (groupings game) w.
Proof. intros Hbox%BoxLayout_NoDup. by apply validWords_spec. Qed.

Lemma validWords_exact_witness :
  s "ADG" ∈ validWords dictADG boxABCD
  ↔ BoxValid dictADG (groupings boxABCD) (s "ADG").
Proof.
  apply (validWords_exact dictADG boxABCD). decide_by_compute.
Defined.

Lemma bind_ext_in {A B} (f g : A → list B) l :
  (∀ x, x ∈ l → f x = g x) → l ≫= f = l ≫= g.
Proof.
  induction l as [|x l IH]; intros Hfg; [done|]. csimpl.
  rewrite (Hfg x) by by left. f_equal. apply IH. intros y ?. apply Hfg. by right.
Qed.

Lemma join_bind_imap {A B} (G : list A → list B) (h : nat → nat)
    (l : list (list A)) :
  imap (λ i side, (h i, side)) l ≫= (λ '(_, side), G side) = l ≫= G.
Proof.
  revert h. induction l as [|side l IH]; intros h; [done|].
  rewrite imap_cons. csimpl. f_equal. apply (IH (h ∘ S)).
Qed.

Lemma join_bind {A B} (G : A → list B) (l : list (list A)) :
  mjoin l ≫= G = l ≫= λ side, side ≫= G.
Proof.
  induction l as [|side l IH]; [done|]. csimpl. by rewrite bind_app, IH.
Qed.

(** X13. [validWords] is the concatenation, over the letters of the box
    side by side, of what [validWordsStartingWith] returns for each letter
    that has a child at the root. *)
Theorem validWords_by_letter dictionary game :
  NoDup (mjoin (groupings game)) →
  validWords dictionary game
  = mjoin (groupings game) ≫= startingWith dictionary game.
Proof.
  intros Hnd. unfold validWords. rewrite validWordHelper_unfold.
  rewrite join_bind.
  rewrite <-(join_bind_imap (λ side, side ≫= startingWith dictionary game) id
               (groupings game)).
  apply bind_ext_in. intros [i side] Hi%elem_of_indexed.
  rewrite decide_False by lia. apply bind_ext_in. intros ch Hch.
  unfold startingWith.
  destruct (children dictionary !! ch) as [next|] eqn:Hnext; [|done].
  rewrite bool_decide_false by (simpl; lia). rewrite andb_false_r. simpl.
  destruct (validWordsStartingWith_cases dictionary game ch)
    as [[Hno _]|(j & side' & Hj & Hch' & ->)].
  + destruct Hno. apply list_elem_of_join. exists side.
    split; [done|by eapply list_elem_of_lookup_2].
  + rewrite Hnext. simpl.
    by rewrite (side_unique (groupings game) j i side' side ch).
Qed.

Lemma validWords_by_letter_witness :
  validWords dictLinked boxABCD
  = mjoin (groupings boxABCD) ≫= startingWith dictLinked boxABCD.
Proof. apply validWords_by_letter. decide_by_compute. Defined.

(** ** When the count panics *)

Lemma forallb_false {A} (f : A → bool) l :
  forallb f l = false → ∃ x, x ∈ l ∧ f x = false.
Proof.
  induction l as [|x l IH]; [done|]. simpl.
  intros [Hx|Hl]%andb_false_iff.
  - exists x. split; [by left|done].
  - destruct (IH Hl) as (y & ? & ?). exists y. split; [by right|done].
Qed.

(** X14. For a box layout, [numberOfSolutions] panics exactly when some
    box-valid word ends in a letter that has no child at the root of the
    dictionary; otherwise it returns. *)
Theorem numberOfSolutions_panics_iff dictionary game :
  BoxLayout (groupings game) →
  (numberOfSolutions dictionary game = Panic
   ↔ ∃ w c, BoxValid dictionary (groupings game) w ∧ last w = Some c
            ∧ children dictionary !! c = None)
  ∧ (numberOfSolutions dictionary game = Panic
     ∨ ∃ n, numberOfSolutions dictionary game = Ret n).
Proof.
  intros Hbox. pose proof (BoxLayout_NoDup _ Hbox) as Hnd.
  assert (numberOfSolutions dictionary game = Panic
          ∨ ∃ n, numberOfSolutions dictionary game = Ret n) as Hout.
  { unfold numberOfSolutions, numberOfSolutions_fuel, solutionsOver.
    apply sumLoop_returns_or_panics. intros w Hw _.
    rewrite sortWords_Permutation in Hw.
    by apply helper_start_returns_or_panics. }
  split; [|done]. split.
  - intros Hpanic.
    destruct (no_dangling_b dictionary game) eqn:Hb.
    + apply no_dangling_b_sound in Hb; [|done].
      rewrite numberOfSolutions_solutions in Hpanic; done.
    + apply forallb_false in Hb as (w & Hw & Hc).
      destruct (last w) as [c|] eqn:Hlast; [|done].
      apply bool_decide_eq_false in Hc. exists w, c.
      split_and!; [by apply validWords_spec|done|].
      by apply eq_None_not_Some.
  - intros (w & c & ? & ? & ?). by eapply numberOfSolutions_dangling.
Qed.

Lemma numberOfSolutions_panics_iff_witness :
  numberOfSolutions dictOnlyADG boxABCD = Panic
  ↔ ∃ w c, BoxValid dictOnlyADG (groupings boxABCD) w ∧ last w = Some c
           ∧ children dictOnlyADG !! c = None.
Proof.
  apply (numberOfSolutions_panics_iff dictOnlyADG boxABCD).
  decide_by_compute.
Defined.

(** ** Coverage depends on the letters only *)

(** X15. [isGameComplete] depends only on the set of letters of its words
    and grows with it: words with the same letters give the same answer,
    whatever their order or number, and more letters never turn a complete
    game into an incomplete one. No words at all are not complete. *)
Theorem isGameComplete_monotone ws ws' :
  isGameComplete [] = false
  ∧ (letterSet ws ⊆ letterSet ws' →
     isGameComplete ws = true → isGameComplete ws' = true)
  ∧ (letterSet ws = letterSet ws' → isGameComplete ws = isGameComplete ws').
Proof.
  split_and!; [done| |].
  - rewrite !isGameComplete_twelve. intros Hsub%subseteq_size. lia.
  - intros Heq. apply eq_true_iff_eq.
    by rewrite !isGameComplete_twelve, Heq.
Qed.

Lemma isGameComplete_monotone_witness :
  isGameComplete [s "LKJIHG"; s "FEDCBA"; s "AAA"] = true.
Proof.
  apply (isGameComplete_monotone [s "ABCDEF"; s "GHIJKL"]).
  - decide_by_compute.
  - vm_compute. reflexivity.
Defined.

(** ** The ranking *)

Lemma str_lt_trans x y z :
  str_lt x y = true → str_lt y z = true → str_lt x z = true.
Proof.
  revert y z. induction x as [|a x IH]; intros [|b y] [|c z]; simpl;
    try done.
  intros [Hab|[Hab Hxy]%andb_true_iff]%orb_true_iff
         [Hbc|[Hbc Hyz]%andb_true_iff]%orb_true_iff;
    rewrite ?N.ltb_lt, ?bool_decide_eq_true in *; subst;
    apply orb_true_iff.
  - left. apply N.ltb_lt. lia.
  - left. by apply N.ltb_lt.
  - left. by apply N.ltb_lt.
  - right. rewrite bool_decide_true by done. simpl. by eapply IH.
Qed.

Lemma str_lt_total x y :
  str_lt x y = false → str_lt y x = false → x = y.
Proof.
  revert y. induction x as [|a x IH]; intros [|b y]; simpl; try done.
  intros [Hab Hxy]%orb_false_iff [Hba Hyx]%orb_false_iff.
  apply N.ltb_ge in Hab, Hba.
  assert (a = b) as -> by (apply rune_code_inj; lia).
  rewrite bool_decide_true in Hxy, Hyx by done. simpl in *.
  f_equal. by apply IH.
Qed.

Lemma ranked_alt x y :
  ranked x y ↔
  length y ≤ length x ∧ (length y = length x → str_lt y x = false).
Proof.
  unfold ranked, byLengthThenAlphabetically.
  rewrite orb_false_iff, andb_false_iff, !bool_decide_eq_false. split.
  - intros [? [?|?]]; split; (lia || done).
  - intros [? Hlt]. split; [lia|].
    destruct (decide (length y = length x)); [right; auto|left; lia].
Qed.

#[local] Instance ranked_trans : Transitive ranked.
Proof.
  intros x y z [Hxy Hxy']%ranked_alt [Hyz Hyz']%ranked_alt.
  apply ranked_alt. split; [lia|]. intros Hlen.
  specialize (Hxy' ltac:(lia)). specialize (Hyz' ltac:(lia)).
  destruct (str_lt z x) eqn:Hzx; [|done].
  destruct (str_lt x y) eqn:Hxy''.
  - by rewrite (str_lt_trans z x y) in Hyz'.
  - rewrite (str_lt_total x y) in Hzx by done. congruence.
Qed.

#[local] Instance ranked_antisym : AntiSymm (=) ranked.
Proof.
  intros x y [Hxy Hxy']%ranked_alt [Hyx Hyx']%ranked_alt.
  apply str_lt_total; [apply Hyx'|apply Hxy']; lia.
Qed.

(** X16. The ranking leaves no choice: a slice that holds the same words
    and is sorted by [byLengthThenAlphabetically] is the one [sortWords]
    returns, so the result of the unstable [sort.Slice] is determined;
    lengths never increase along it. *)
Theorem ranking_unique l sorted :
  sorted ≡ₚ l → Sorted ranked sorted →
  sorted = sortWords l
  ∧ ∀ i j x y, i ≤ j → sorted !! i = Some x → sorted !! j = Some y →
               length y ≤ length x.
Proof.
  intros Hperm Hsorted. split.
  - apply (Sorted_unique ranked); [done|apply sortWords_Sorted|].
    by rewrite sortWords_Permutation.
  - apply (Sorted_StronglySorted ranked) in Hsorted.
    intros i j x y Hij Hi Hj.
    destruct (decide (i = j)) as [->|Hne]; [by simplify_eq|].
    assert (ranked x y) as [? _]%ranked_alt; [|done].
    clear Hperm. revert i j Hij Hne Hi Hj.
    induction Hsorted as [|z rest Hrest IH Hall]; intros i j Hij Hne Hi Hj;
      [done|].
    destruct i as [|i], j as [|j]; simplify_eq/=; try lia.
    + rewrite Forall_forall in Hall. apply Hall.
      by eapply list_elem_of_lookup_2.
    + apply (IH i j); [lia|lia|done..].
Qed.

Lemma ranking_unique_witness :
  [s "GJHKIL"; s "LEAD"; s "LEA"]
  = sortWords [s "LEA"; s "GJHKIL"; s "LEAD"].
Proof.
  apply (ranking_unique [s "LEA"; s "GJHKIL"; s "LEAD"]
                        [s "GJHKIL"; s "LEAD"; s "LEA"]).
  - etrans; [apply perm_skip, perm_swap|apply perm_swap].
  - repeat constructor.
Defined.

(** ** Exploring keeps to the trie *)

Lemma explore_path t token currentPrefix :
  isWordValid t currentPrefix = true →
  isWordValid t (ex_word (explore t token currentPrefix)) = true.
Proof.
  intros Hvalid. unfold explore.
  destruct (decide (token = s ".reset")); [done|].
  destruct (decide (token = s ".valid")); [done|].
  pose proof (walk_descend t (ToUpper (currentPrefix ++ token))) as Hwalk.
  destruct (walk t _) as [node|ch]; [|done].
  destruct (decide (size (children node) = 0)); [done|]. simpl.
  apply isWordValid_descend. by eexists.
Qed.

(** X17. Whatever token is entered, [explore] hands back a prefix that is
    a path of the trie whenever the prefix it was given is one; and after
    a token other than [.valid] that raises no error, the prefix handed
    back is a path of the trie whatever the prefix given was. The
    trie-browsing mode never leaves the dictionary. *)
Theorem explore_keeps_path t token currentPrefix :
  (isWordValid t currentPrefix = true →
   isWordValid t (ex_word (explore t token currentPrefix)) = true)
  ∧ (token ≠ s ".valid" →
     ex_err (explore t token currentPrefix) = None →
     isWordValid t (ex_word (explore t token currentPrefix)) = true).
Proof.
  split; [apply explore_path|].
  intros Hvalid. unfold explore.
  destruct (decide (token = s ".reset")); [done|].
  rewrite decide_False by done.
  pose proof (walk_descend t (ToUpper (currentPrefix ++ token))) as Hwalk.
  destruct (walk t _) as [node|ch]; [|done].
  destruct (decide (size (children node) = 0)); [done|]. simpl.
  intros _. apply isWordValid_descend. by eexists.
Qed.

Lemma explore_keeps_path_witness :
  isWordValid dictCAT (ex_word (explore dictCAT (s "at") (s "C"))) = true
  ∧ isWordValid dictCAT (ex_word (explore dictCAT (s "a") (s "c"))) = true.
Proof.
  split.
  - apply (proj1 (explore_keeps_path dictCAT (s "at") (s "C"))).
    vm_compute. reflexivity.
  - apply (proj2 (explore_keeps_path dictCAT (s "a") (s "c"))); [done|].
    vm_compute. reflexivity.
Defined.

(** * Properties of the shell *)

(** ** validateFlags *)

Lemma checkGroup_inr allLetters group allLetters' :
  checkGroup allLetters group = inr allLetters'
  ↔ NoDup group ∧ (∀ c, c ∈ group → c ∉ allLetters)
    ∧ allLetters' = list_to_set group ∪ allLetters.
Proof.
  revert allLetters allLetters'.
  induction group as [|ch group IH]; intros allLetters allLetters'; simpl.
  - split.
    + intros [= <-]. split_and!; [constructor|by intros ? ?%elem_of_nil|].
      by rewrite (left_id_L ∅ (∪)).
    + intros (_ & _ & ->). by rewrite (left_id_L ∅ (∪)).
  - destruct (decide (ch ∈ allLetters)) as [Hin|Hnotin].
    + split; [done|]. intros (_ & Hfresh & _). destruct (Hfresh ch); [by left|done].
    + rewrite IH, NoDup_cons. split.
      * intros (? & Hfresh & ->). split_and!.
        -- intros Hch. apply (Hfresh ch Hch). set_solver.
        -- done.
        -- intros c [->|Hc]%elem_of_cons; [done|].
           specialize (Hfresh c Hc). set_solver.
        -- set_solver.
      * intros ([Hch ?] & Hfresh & ->). split_and!; [done| |set_solver].
        intros c Hc [->%elem_of_singleton|?]%elem_of_union; [done|].
        apply (Hfresh c); [by right|done].
Qed.

Lemma checkGroups_None groupings allLetters rest :
  checkGroups groupings allLetters rest = None
  ↔ Forall (λ side, length side = 3) rest ∧ NoDup (mjoin rest)
    ∧ ∀ c, c ∈ mjoin rest → c ∉ allLetters.
Proof.
  revert allLetters. induction rest as [|group rest IH]; intros allLetters.
  - simpl. split; [|done]. intros _.
    split_and!; [constructor|constructor|by intros ? ?%elem_of_nil].
  - cbn [checkGroups]. rewrite Forall_cons. simpl mjoin. rewrite NoDup_app.
    destruct (decide (length group ≠ 3)) as [Hlen|Hlen].
    { split; [done|]. by intros ([? _] & _). }
    apply dec_stable in Hlen.
    destruct (checkGroup allLetters group) as [ch|allLetters'] eqn:Hgroup.
    + split; [done|]. intros (_ & (Hnd & _ & _) & Hfresh).
      assert (checkGroup allLetters group
              = inr (list_to_set group ∪ allLetters)) as Heq; [|congruence].
      apply checkGroup_inr. split_and!; [done| |done].
      intros c Hc. apply Hfresh, elem_of_app. by left.
    + apply checkGroup_inr in Hgroup as (Hnd & Hfresh & ->).
      rewrite IH. split.
      * intros (? & ? & Hrest). split_and!; [done..| | |].
        -- intros c Hc Hc'. apply (Hrest c Hc'). set_solver.
        -- done.
        -- intros c [?|Hc]%elem_of_app; [by apply Hfresh|].
           specialize (Hrest c Hc). set_solver.
      * intros ([_ ?] & (_ & Hdisj & ?) & Hall). split_and!; [done..|].
        intros c Hc [Hin%elem_of_list_to_set|?]%elem_of_union.
        -- by apply (Hdisj c).
        -- apply (Hall c); [|done]. apply elem_of_app. by right.
Qed.

Lemma validateFlags_layout letters :
  validateFlags letters = None → BoxLayout (groupings (gameOfFlag letters)).
Proof.
  unfold validateFlags, BoxLayout. simpl.
  destruct (decide (length letters = 0)); [done|].
  destruct (decide (length (Split (ToUpper letters) ",") ≠ 4)) as [|Hlen];
    [done|].
  apply dec_stable in Hlen. by intros (? & ? & _)%checkGroups_None.
Qed.

(** X18. [validateFlags] returns, instead of ending the process, exactly
    when the uppercased flag splits at the commas into a box layout: four
    groups of three characters, all twelve distinct. This is the list of
    sides [repl] then hands to the search. *)
Theorem validateFlags_spec letters :
  validateFlags letters = None ↔ BoxLayout (groupings (gameOfFlag letters)).
Proof.
  unfold validateFlags, BoxLayout. simpl.
  destruct (decide (length letters = 0)) as [Hempty|_].
  { split; [done|]. intros (Hlen & _).
    apply length_zero_iff_nil in Hempty as ->. done. }
  destruct (decide (length (Split (ToUpper letters) ",") ≠ 4)) as [|Hlen].
  { split; [done|]. by intros (? & _). }
  apply dec_stable in Hlen. rewrite checkGroups_None. split.
  - by intros (? & ? & _).
  - intros (_ & ? & ?). split_and!; [done..|]. intros c _. set_solver.
Qed.

(** ** cleanInput *)

Lemma isSpace_lower c : isSpace (lower_rune c) = isSpace c.
Proof. by destruct c as [[] [] [] [] [] [] [] []]. Qed.

Lemma isSpace_upper c : isSpace (upper_rune c) = isSpace c.
Proof. by destruct c as [[] [] [] [] [] [] [] []]. Qed.

Lemma lower_lower c : lower_rune (lower_rune c) = lower_rune c.
Proof. by destruct c as [[] [] [] [] [] [] [] []]. Qed.

Lemma lower_upper c : lower_rune (upper_rune c) = lower_rune c.
Proof. by destruct c as [[] [] [] [] [] [] [] []]. Qed.

Lemma trimLeft_fmap (f : ascii → ascii) w :
  (∀ c, isSpace (f c) = isSpace c) →
  trimLeft (f <$> w) = f <$> trimLeft w.
Proof.
  intros Hf. induction w as [|c w IH]; [done|]. csimpl.
  rewrite Hf. by destruct (isSpace c).
Qed.

Lemma TrimSpace_fmap (f : ascii → ascii) w :
  (∀ c, isSpace (f c) = isSpace c) →
  TrimSpace (f <$> w) = f <$> TrimSpace w.
Proof.
  intros Hf. unfold TrimSpace.
  by rewrite trimLeft_fmap, <-fmap_reverse, trimLeft_fmap, fmap_reverse.
Qed.

Lemma trimLeft_spaces pad w :
  Forall (λ c, isSpace c = true) pad → trimLeft (pad ++ w) = trimLeft w.
Proof. induction 1 as [|c pad Hc _ IH]; [done|]. simpl. by rewrite Hc. Qed.

Lemma TrimSpace_pad_r w pad :
  Forall (λ c, isSpace c = true) pad → TrimSpace (w ++ pad) = TrimSpace w.
Proof.
  intros Hpad. unfold TrimSpace. induction w as [|c w IH]; simpl.
  - rewrite <-(app_nil_r pad), trimLeft_spaces by done. done.
  - destruct (isSpace c); [done|].
    rewrite app_comm_cons, reverse_app, trimLeft_spaces; [done|].
    by apply Forall_reverse.
Qed.

Lemma trimLeft_starts_clean w : starts_clean (trimLeft w).
Proof.
  induction w as [|c w IH]; [by intros ?|]. simpl.
  destruct (isSpace c) eqn:Hc; [done|]. by intros ? [= <-].
Qed.

Lemma trimLeft_clean w : starts_clean w → trimLeft w = w.
Proof.
  destruct w as [|c w]; [done|]. intros Hclean. simpl.
  by rewrite (Hclean c).
Qed.

Lemma trimLeft_suffix w : trimLeft w `suffix_of` w.
Proof.
  induction w as [|c w IH]; [done|]. simpl.
  destruct (isSpace c); [by apply suffix_cons_r|done].
Qed.

Lemma TrimSpace_idemp w : TrimSpace (TrimSpace w) = TrimSpace w.
Proof.
  unfold TrimSpace.
  set (u := trimLeft w). set (v := trimLeft (reverse u)).
  assert (starts_clean (reverse v)) as Hclean.
  { destruct (trimLeft_suffix (reverse u)) as [k Hk]. fold v in Hk.
    apply (f_equal reverse) in Hk. rewrite reverse_involutive, reverse_app in Hk.
    intros c Hc. apply (trimLeft_starts_clean w c). fold u. rewrite Hk.
    destruct (reverse v); [done|]. done. }
  rewrite (trimLeft_clean (reverse v)) by done.
  rewrite reverse_involutive.
  by rewrite (trimLeft_clean v) by apply trimLeft_starts_clean.
Qed.

(** X19. [cleanInput] ignores white space around a line and the case of
    its letters, and cleaning twice changes nothing: a command is
    recognised however it is padded or capitalised. *)
Theorem cleanInput_spec text pad pad' :
  Forall (λ c, isSpace c = true) pad → Forall (λ c, isSpace c = true) pad' →
  cleanInput (pad ++ text ++ pad') = cleanInput text
  ∧ cleanInput (ToUpper text) = cleanInput text
  ∧ cleanInput (cleanInput text) = cleanInput text.
Proof.
  intros Hpad Hpad'. unfold cleanInput. split_and!.
  - f_equal. rewrite app_assoc, TrimSpace_pad_r by done.
    unfold TrimSpace. by rewrite trimLeft_spaces.
  - unfold ToUpper, ToLower.
    rewrite TrimSpace_fmap by apply isSpace_upper.
    rewrite <-!list_fmap_compose. apply list_fmap_ext.
    intros _ c _. apply lower_upper.
  - unfold ToLower.
    rewrite TrimSpace_fmap by apply isSpace_lower.
    rewrite TrimSpace_idemp, <-list_fmap_compose. apply list_fmap_ext.
    intros _ c _. apply lower_lower.
Qed.

Lemma cleanInput_spec_witness :
  cleanInput (s "  " ++ s "Exit" ++ s " ") = cleanInput (s "Exit").
Proof. apply cleanInput_spec; repeat constructor. Defined.

(** ** The command loop *)

(** A line of one character is none of the four reserved words. *)
Lemma replTurn_letter_mode dictionary game st line c :
  trieMode st = false → cleanInput line = [c] →
  replTurn dictionary game st line =
  validWords ← validWordsStartingWith dictionary game [upper_rune c];
  Ret (Next st [ShowWords (length validWords) [c]
                          (take 10 (sortWords validWords))]).
Proof.
  intros Hmode Htext. unfold replTurn. rewrite Htext, Hmode.
  rewrite !decide_False by done.
  assert (∀ word, length word = 4 → EqualFold word [c] = false) as Hfold.
  { intros word Hlen. unfold EqualFold. apply bool_decide_eq_false.
    intros Heq%(f_equal length). unfold ToLower in Heq.
    rewrite !length_fmap in Heq. simpl in Heq. lia. }
  rewrite !Hfold by done. by rewrite decide_True.
Qed.

(** X20. In letter mode a line of a single character ends the program
    unless the character, uppercased, is a letter of the box that starts a
    dictionary word: a character outside the box exits the process through
    [log.Fatalf], a box letter without a child at the root panics. *)
Theorem replTurn_letter_fails dictionary game st line c :
  trieMode st = false → cleanInput line = [c] →
  (upper_rune c ∉ mjoin (groupings game) →
   replTurn dictionary game st line = Fatal)
  ∧ (BoxLayout (groupings game) →
     upper_rune c ∈ mjoin (groupings game) →
     children dictionary !! upper_rune c = None →
     replTurn dictionary game st line = Panic).
Proof.
  intros Hmode Htext. rewrite (replTurn_letter_mode _ _ _ _ c) by done.
  destruct (validWordsStartingWith_cases dictionary game (upper_rune c))
    as [[Hno ->]|(i & side & Hi & Hc & ->)]; split; try done.
  - intros Hno. destruct Hno. apply list_elem_of_join. exists side.
    split; [done|by eapply list_elem_of_lookup_2].
  - intros Hbox _ ->. by rewrite validWordHelper_ptr_nil.
Qed.

Lemma replTurn_letter_fails_witness :
  replTurn dictLinked boxABCD (Shell false []) (s " z ") = Fatal
  ∧ replTurn dictLinked boxABCD (Shell false []) (s "b") = Panic.
Proof.
  split.
  - apply (replTurn_letter_fails _ _ _ _ "z"%char); [done|done|].
    decide_by_compute.
  - apply (replTurn_letter_fails _ _ _ _ "b"%char); [done|done| | |].
    + decide_by_compute.
    + decide_by_compute.
    + vm_compute. reflexivity.
Defined.

(** X21. In letter mode, when the turn for a single character returns, the
    state is unchanged and the line written gives the number of box-valid
    words that start with the uppercased character and the first ten of
    them in ranking order. *)
Theorem replTurn_letter_shows dictionary game st line c t :
  NoDup (mjoin (groupings game)) →
  trieMode st = false → cleanInput line = [c] →
  replTurn dictionary game st line = Ret t →
  ∃ ws, t = Next st [ShowWords (length ws) [c] (take 10 (sortWords ws))]
        ∧ NoDup ws
        ∧ ∀ w, w ∈ ws ↔ BoxValid dictionary (groupings game) w
                        ∧ head w = Some (upper_rune c).
Proof.
  intros Hnd Hmode Htext. rewrite (replTurn_letter_mode _ _ _ _ c) by done.
  destruct (validWordsStartingWith dictionary game [upper_rune c])
    as [ws| | |] eqn:Hws; try done.
  intros [= <-]. exists ws. split; [done|].
  by apply validWordsStartingWith_spec.
Qed.

Lemma replTurn_letter_shows_witness :
  ∃ ws, Next (Shell false []) [ShowWords 1 (s "l") [s "LEA"]]
        = Next (Shell false [])
            [ShowWords (length ws) (s "l") (take 10 (sortWords ws))]
        ∧ NoDup ws
        ∧ ∀ w, w ∈ ws ↔ BoxValid dictLinked (groupings boxABCD) w
                        ∧ head w = Some (upper_rune "l").
Proof.
  apply (replTurn_letter_shows dictLinked boxABCD (Shell false []) (s " L")).
  - decide_by_compute.
  - done.
  - vm_compute. reflexivity.
  - vm_compute. reflexivity.
Defined.

Lemma replTurn_keeps_path dictionary game st line st' out :
  isWordValid dictionary (currWord st) = true →
  replTurn dictionary game st line = Ret (Next st' out) →
  isWordValid dictionary (currWord st') = true.
Proof.
  intros Hvalid. unfold replTurn.
  repeat (case_decide; [by intros [= <- _]|]).
  destruct (EqualFold _ _); [done|].
  destruct (EqualFold _ _); [by intros [= <- _]|].
  destruct (trieMode st).
  { intros [= <- _]. simpl. by apply explore_path. }
  case_decide; [|by intros [= <- _]].
  destruct (validWordsStartingWith _ _ _); try done. by intros [= <- _].
Qed.

(** X22. Through a whole session the current word of the trie mode stays a
    path of the dictionary: if it is one when the loop starts (the empty
    word is), it is one when the loop returns, whatever lines were read and
    however often the mode was switched. *)
Theorem replLoop_keeps_path dictionary game st lines st' out :
  isWordValid dictionary (currWord st) = true →
  replLoop dictionary game st lines = Ret (st', out) →
  isWordValid dictionary (currWord st') = true.
Proof.
  revert st out. induction lines as [|line lines IH]; intros st out Hvalid.
  { by intros [= <- _]. }
  simpl. destruct (replTurn dictionary game st line) as [t| | |] eqn:Hturn;
    try done.
  unfold mbind at 1, outcome_bind at 1, obind at 1.
  destruct t as [|st1 out1]; [by intros [= <- _]|].
  destruct (replLoop dictionary game st1 lines) as [[st2 out2]| | |] eqn:Hloop;
    try done.
  intros [= <- _]. eapply IH; [|done].
  by eapply replTurn_keeps_path.
Qed.

Lemma replLoop_keeps_path_witness :
  isWordValid dictLinked (s "LE") = true.
Proof.
  eapply (replLoop_keeps_path dictLinked boxABCD (Shell false [])
            [s "trie"; s "l"; s "e"; s "q"; s "trie"; s "l"]
            (Shell false (s "LE"))).
  - done.
  - vm_compute. reflexivity.
Defined.

(** ** From the flag to the count *)

(** X23. When [main] comes to the end of a session, the flag was a box
    layout, the word list was read, and the number printed at the start is
    the number of solution chains of the dictionary built from it: the
    length, as a 64-bit [int], of any duplicate-free list of the chains of
    three box-valid words that are chained, repeat no word and cover the
    box. *)
Theorem main_counts file letters input n st out sols :
  main file letters input = inr (Ret (Some (n, st, out))) →
  ∃ lines,
    file = Some lines
    ∧ BoxLayout (groupings (gameOfFlag letters))
    ∧ (NoDup sols →
       (∀ chain, chain ∈ sols
                 ↔ Solution (BoxValid (buildTrie lines)
                                      (groupings (gameOfFlag letters)))
                            (groupings (gameOfFlag letters)) chain) →
       n = int_of_nat (length sols)).
Proof.
  unfold main.
  destruct (validateFlags letters) eqn:Hflags; [done|].
  apply validateFlags_layout in Hflags.
  destruct file as [lines|]; [|done]. simpl.
  destruct (numberOfSolutions (buildTrie lines) (gameOfFlag letters))
    as [n'| | |] eqn:Hcount; try done.
  unfold mbind at 1, outcome_bind at 1, obind at 1.
  destruct (replLoop _ _ _ _) as [[st' out']| | |]; try done.
  intros [= <- _ _]. exists lines. split_and!; [done..|].
  intros Hnd Hsols.
  destruct (solutions_spec (buildTrie lines) (gameOfFlag letters) Hflags)
    as [Hnd' Hspec].
  assert (sols ≡ₚ solutions (buildTrie lines) (gameOfFlag letters)) as Hperm.
  { apply NoDup_Permutation; [done..|]. intros chain.
    by rewrite Hsols, Hspec. }
  destruct (no_dangling_b (buildTrie lines) (gameOfFlag letters)) eqn:Hb.
  - apply no_dangling_b_sound in Hb; [|by apply BoxLayout_NoDup].
    rewrite numberOfSolutions_solutions in Hcount by done.
    rewrite Hperm. congruence.
  - apply forallb_false in Hb as (w & Hw & Hc).
    destruct (last w) as [c|] eqn:Hlast; [|done].
    apply bool_decide_eq_false, eq_None_not_Some in Hc.
    apply validWords_spec in Hw; [|by apply BoxLayout_NoDup].
    by rewrite (numberOfSolutions_dangling _ _ w c) in Hcount.
Qed.

Lemma main_counts_witness :
  ∃ lines,
    Some linesLinked = Some lines
    ∧ BoxLayout (groupings (gameOfFlag (s "abc,def,ghi,jkl")))
    ∧ (NoDup [[s "GJHKIL"; s "LEA"; s "ADBECF"]] →
       (∀ chain, chain ∈ [[s "GJHKIL"; s "LEA"; s "ADBECF"]]
                 ↔ Solution (BoxValid (buildTrie lines)
                               (groupings (gameOfFlag (s "abc,def,ghi,jkl"))))
                            (groupings (gameOfFlag (s "abc,def,ghi,jkl")))
                            chain) →
       1%Z = int_of_nat (length [[s "GJHKIL"; s "LEA"; s "ADBECF"]])).
Proof.
  eapply (main_counts (Some linesLinked) (s "abc,def,ghi,jkl")
            [s "l"; s "exit"; s "z"]).
  vm_compute. reflexivity.
Defined.
